(** * add_week.py: the weekly-article pipeline

    A shallow embedding of [scripts/add_week.py] and the properties of its
    parsers, of the data-store update and of the HTML synchronisation.

    Conventions.
    - A Python [str] is the list of its Unicode code points ([str := list N]).
    - A function that may call [die] returns a [result]; [die] always exits
      with status 1 (its [code] argument is never overridden), and the
      constructor records which diagnostic went to the error stream.  What
      the script prints is not part of the model.
    - Code that touches the file system is a function of an explicit
      [World], so that the files a failing run leaves behind can be
      inspected.  Files are text; of the errors of the operating system
      only the missing file is modelled.
    - What the script takes from its platform (Unicode tables of [re] and
      [str], [json], [Path.resolve], the [cwebp] executable) is the
      interface [Runtime]. *)

From Stdlib Require Import ZArith NArith List Bool Lia Sorted Permutation.
From stdpp Require Import gmap strings list sorting pretty.

Open Scope Z_scope.

(** * Part I: the program *)

(** ** Python strings *)

Definition str := list N.

(** The code points of an ASCII literal. *)
Definition u (s : string) : str :=
  map (fun a => N.of_nat (Ascii.nat_of_ascii a)) (String.list_ascii_of_string s).

Definition LF : N := 10%N.
Definition CR : N := 13%N.
Definition QUOTE : N := 34%N.
Definition LESS_THAN : N := 60%N.

(** [str.isspace] on one character (CPython's whitespace table); it is also
    the class [\s] of [re] on [str] patterns. *)
Definition isspace (c : N) : bool :=
  (((9 <=? c) && (c <=? 13)) || ((28 <=? c) && (c <=? 32))
   || (c =? 133) || (c =? 160) || (c =? 5760)
   || ((8192 <=? c) && (c <=? 8202))
   || (c =? 8232) || (c =? 8233) || (c =? 8239) || (c =? 8287)
   || (c =? 12288))%N.

(** The line boundaries of [str.splitlines]. *)
Definition is_linebreak (c : N) : bool :=
  (((10 <=? c) && (c <=? 13)) || ((28 <=? c) && (c <=? 30))
   || (c =? 133) || (c =? 8232) || (c =? 8233))%N.

Definition mem (c : N) (chars : str) : bool := existsb (N.eqb c) chars.

Fixpoint lstrip_by (p : N -> bool) (s : str) : str :=
  match s with
  | [] => []
  | c :: s' => if p c then lstrip_by p s' else s
  end.

Definition rstrip_by (p : N -> bool) (s : str) : str :=
  rev (lstrip_by p (rev s)).

Definition strip_by (p : N -> bool) (s : str) : str :=
  rstrip_by p (lstrip_by p s).

(** [s.lstrip()], [s.strip()] and [s.strip(chars)]. *)
Definition lstrip : str -> str := lstrip_by isspace.
Definition strip : str -> str := strip_by isspace.
Definition strip_chars (chars : str) : str -> str :=
  strip_by (fun c => mem c chars).

(** [s.startswith(prefix)]. *)
Fixpoint startswith (s prefix : str) {struct prefix} : bool :=
  match prefix, s with
  | [], _ => true
  | p :: prefix', c :: s' => (c =? p)%N && startswith s' prefix'
  | _ :: _, [] => false
  end.

(** [sep.join(items)]. *)
Fixpoint join (sep : str) (items : list str) : str :=
  match items with
  | [] => []
  | [x] => x
  | x :: rest => x ++ sep ++ join sep rest
  end.

(** [s.splitlines()]; [cur] is the line being read. *)
Fixpoint splitlines_from (cur : str) (s : str) : list str :=
  match s with
  | [] => match cur with [] => [] | _ => [cur] end
  | c :: s' =>
      if is_linebreak c then
        match s' with
        | c' :: s'' =>
            if (c =? CR)%N && (c' =? LF)%N
            then cur :: splitlines_from [] s''
            else cur :: splitlines_from [] s'
        | [] => [cur]
        end
      else splitlines_from (cur ++ [c]) s'
  end.

Definition splitlines : str -> list str := splitlines_from [].

(** [s.find(sub, start)]: [None] stands for -1. *)
Fixpoint find_at (sub s : str) (pos : nat) : option nat :=
  if startswith s sub then Some pos
  else match s with
       | [] => None
       | _ :: s' => find_at sub s' (S pos)
       end.

Definition find (s sub : str) (start : nat) : option nat :=
  if (start <=? length s)%nat then find_at sub (drop start s) start else None.

(** [s.replace(old, new)] for a non-empty [old]: the occurrences are taken
    from the left and do not overlap; [skip] counts the characters of the
    occurrence just replaced that are still to be passed over. *)
Fixpoint replace_from (old new : str) (skip : nat) (s : str) : str :=
  match s with
  | [] => []
  | c :: s' =>
      match skip with
      | S n => replace_from old new n s'
      | O =>
          if startswith s old
          then new ++ replace_from old new (length old - 1) s'
          else c :: replace_from old new 0 s'
      end
  end.

Definition replace (s old new : str) : str := replace_from old new 0 s.

(** ** Termination of the run *)

(** The diagnostics of [die], one constructor per call site. *)
Inductive failure :=
  | CommandNotFound
  | CommandFailed (returncode : Z)
  | UnexpectedFilename
  | NoQuestion
  | NoDivider
  | EmptyContent
  | NoCoverImage
  | NoOpeningMarker
  | NoClosingMarker
  | SourceNotFound.

(** [Ok x]: normal completion; [Die why]: [die] raised [SystemExit(1)];
    [Raise exc]: an exception nobody catches. *)
Inductive result (A : Type) :=
  | Ok (x : A)
  | Die (why : failure)
  | Raise (exc : string).

Arguments Ok {A} x.
Arguments Die {A} why.
Arguments Raise {A} exc.

#[global] Instance result_ret : MRet result := @Ok.

#[global] Instance result_bind : MBind result := fun A B k r =>
  match r with
  | Ok x => k x
  | Die why => Die why
  | Raise exc => Raise exc
  end.

(** The exit status of the process for the outcome of [main]
    ([raise SystemExit(main())]; an uncaught exception exits with 1). *)
Definition exit_status (r : result Z) : Z :=
  match r with
  | Ok n => n
  | Die _ => 1
  | Raise _ => 1
  end.

(** ** Regular expressions

    The patterns of the script are transcribed with three backtracking
    combinators; [k] is the rest of the pattern. *)

(** A literal at the head of the input. *)
Definition lit (prefix s : str) : option str :=
  if startswith s prefix then Some (drop (length prefix) s) else None.

(** Greedy [c+]: the longest run first, then shorter ones. *)
Fixpoint plus_greedy {B} (p : N -> bool) (k : str -> option B) (s : str)
  : option (str * B) :=
  match s with
  | [] => None
  | c :: s' =>
      if p c then
        match plus_greedy p k s' with
        | Some (run, b) => Some (c :: run, b)
        | None => match k s' with
                  | Some b => Some ([c], b)
                  | None => None
                  end
        end
      else None
  end.

(** Greedy [c*]. *)
Definition star_greedy {B} (p : N -> bool) (k : str -> option B) (s : str)
  : option (str * B) :=
  match plus_greedy p k s with
  | Some r => Some r
  | None => match k s with
            | Some b => Some ([], b)
            | None => None
            end
  end.

(** Lazy [c+?]: the shortest run first. *)
Fixpoint plus_lazy {B} (p : N -> bool) (k : str -> option B) (s : str)
  : option (str * B) :=
  match s with
  | [] => None
  | c :: s' =>
      if p c then
        match k s' with
        | Some b => Some ([c], b)
        | None => match plus_lazy p k s' with
                  | Some (run, b) => Some (c :: run, b)
                  | None => None
                  end
        end
      else None
  end.

(** [.] (any character but a newline) and [$] (the end of the input, or
    just before a newline that ends it). *)
Definition dot (c : N) : bool := negb (c =? LF)%N.
Definition eol (s : str) : bool :=
  match s with
  | [] => true
  | [c] => (c =? LF)%N
  | _ => false
  end.
Definition at_eol (s : str) : option unit := if eol s then Some () else None.

(** ** The data store (section 3 of the specification)

    An article record is the dict [{week, title, question, content, image}]
    built by [main]; [week] is optional because the code reads it with
    [dict.get], which tolerates a record that lacks the key.  Week numbers
    are integers. *)

Record Article := mkArticle {
  week : option Z;
  title : str;
  question : str;
  content : str;
  image : str
}.

#[global] Instance Article_eq_dec : EqDecision Article.
Proof. solve_decision. Defined.

(** A top-level value of the document other than the article list. *)
Inductive value :=
  | VInt (n : Z)
  | VStr (s : str).

#[global] Instance value_eq_dec : EqDecision value.
Proof. solve_decision. Defined.

(** The document: the key ["articles"] (absent, or a list of records) and
    the map of every other top-level key (["completed"], ["total"], ...). *)
Record Document := mkDocument {
  articles : option (list Article);
  fields : gmap string value
}.

(** [a.get("week", 0)], the sort key. *)
Definition week_key (a : Article) : Z := default 0 (week a).

(** The [for ... enumerate(articles)] loop of [upsert_article]: the first
    record whose week equals [wk] is overwritten and the loop stops.  The
    second component is the flag [replaced]. *)
Fixpoint replace_loop (wk : option Z) (article : Article) (l : list Article)
  : list Article * bool :=
  match l with
  | [] => ([], false)
  | a :: rest =>
      if decide (week a = wk) then (article :: rest, true)
      else let '(rest', replaced) := replace_loop wk article rest in
           (a :: rest', replaced)
  end.

(** [list.sort(key=...)] is a stable sort, and the keys are integers: its
    result is the one of the stable insertion sort below. *)
Fixpoint insert_by_week (a : Article) (l : list Article) : list Article :=
  match l with
  | [] => [a]
  | b :: l' =>
      if week_key a <=? week_key b then a :: b :: l'
      else b :: insert_by_week a l'
  end.

Definition sort_by_week (l : list Article) : list Article :=
  foldr insert_by_week [] l.

Definition upsert_article (data : Document) (article : Article) : Document :=
  let articles0 := default [] (articles data) in
  let '(articles1, replaced) := replace_loop (week article) article articles0 in
  let articles2 := if replaced then articles1 else articles1 ++ [article] in
  let articles3 := sort_by_week articles2 in
  {| articles := Some articles3;
     fields := <["completed" := VInt (Z.of_nat (length articles3))]> (fields data) |}.

(** The article list a reader of the document sees. *)
Definition get_articles (data : Document) : list Article :=
  default [] (articles data).

(** ** Paths and files

    A path is absolute and is the list of its components (pure POSIX
    paths; [pathlib] drops empty components and [.] when it parses a
    string, and keeps [..]).  The file system maps the paths that exist to
    their contents; directories are implicit, so [mkdir] changes nothing. *)

Definition Path := list str.

Abbreviation World := (gmap (list (list N)) (list N)).

Definition SLASH : N := 47%N.
Definition FULL_STOP : N := 46%N.

Definition nonempty (s : str) : bool :=
  match s with
  | [] => false
  | _ :: _ => true
  end.

Fixpoint split_on (sep : N) (cur : str) (s : str) : list str :=
  match s with
  | [] => [cur]
  | c :: s' =>
      if (c =? sep)%N then cur :: split_on sep [] s'
      else split_on sep (cur ++ [c]) s'
  end.

(** The components [pathlib] reads off a string. *)
Definition path_parts (s : str) : list str :=
  List.filter (fun c => nonempty c && negb (bool_decide (c = [FULL_STOP])))
              (split_on SLASH [] s).

Definition is_absolute (s : str) : bool := startswith s [SLASH].

(** [p / s]: an absolute right operand replaces the left one. *)
Definition joinpath (p : Path) (s : str) : Path :=
  if is_absolute s then path_parts s else p ++ path_parts s.

(** [p.name]. *)
Definition path_name (p : Path) : str := default [] (last p).

(** [name.rfind(".")]. *)
Fixpoint rfind_dot (name : str) (pos : nat) : option nat :=
  match name with
  | [] => None
  | c :: name' =>
      match rfind_dot name' (S pos) with
      | Some i => Some i
      | None => if (c =? FULL_STOP)%N then Some pos else None
      end
  end.

(** [p.suffix], read off the name. *)
Definition suffix_of (name : str) : str :=
  match rfind_dot name 0 with
  | Some i =>
      if ((0 <? i) && (S i <? length name))%nat then drop i name else []
  | None => []
  end.

Definition path_suffix (p : Path) : str := suffix_of (path_name p).

(** [p.with_suffix(suffix)]. *)
Definition with_suffix (p : Path) (suffix : str) : result Path :=
  let name := path_name p in
  if nonempty name then
    let old_suffix := suffix_of name in
    Ok (removelast p
          ++ [take (length name - length old_suffix)%nat name ++ suffix])
  else Raise "ValueError".

(** [p.relative_to(root).as_posix()]. *)
Fixpoint relative_to (p root : Path) : result (list str) :=
  match root, p with
  | [], _ => Ok p
  | r :: root', c :: p' =>
      if bool_decide (c = r) then relative_to p' root' else Raise "ValueError"
  | _ :: _, [] => Raise "ValueError"
  end.

Definition as_posix (rel : list str) : str :=
  match rel with
  | [] => [FULL_STOP]
  | _ => join [SLASH] rel
  end.

Definition exists_ (w : World) (p : Path) : bool := bool_decide (is_Some (w !! p)).

(** ** The platform *)

(** What became of a subprocess: it ran and exited with 0, the executable
    was not found, or it exited with a non-zero status. *)
Inductive run_outcome :=
  | Ran (w : World)
  | NotFound
  | Failed (returncode : Z) (w : World).

(** The platform of the script.
    - [ROOT]: the directory above the script's.
    - [decimal_digit c]: the value of [c] when it is a decimal digit
      (Unicode category Nd: the class [\d] of [re], the digits of [int]).
    - [ignorecase_eq p c]: the character [c] matches the pattern character
      [p] under [re.IGNORECASE].
    - [lower]: [str.lower].
    - [resolve]: [Path.resolve].
    - [cwebp quality src out]: the image encoder, run as
      [cwebp -q quality -m 6 -mt -metadata none src -o out].
    - [json_loads], [json_dumps_indent2] ([indent=2]) and
      [json_dumps_compact] ([separators=(",", ": ")]), both with
      [ensure_ascii=False]. *)
Class Runtime := {
  ROOT : Path;
  decimal_digit : N -> option Z;
  ignorecase_eq : N -> N -> bool;
  lower : str -> str;
  resolve : Path -> Path;
  cwebp : Z -> Path -> Path -> World -> run_outcome;
  json_loads : str -> option Document;
  json_dumps_indent2 : Document -> str;
  json_dumps_compact : Document -> str
}.

(** Computations on the file system: the outcome and the files left. *)
Definition M (A : Type) : Type := World -> result A * World.

#[global] Instance M_ret : MRet M := fun A x w => (Ok x, w).

#[global] Instance M_bind : MBind M := fun A B k m w =>
  match m w with
  | (Ok x, w') => k x w'
  | (Die why, w') => (Die why, w')
  | (Raise exc, w') => (Raise exc, w')
  end.

Definition lift {A} (r : result A) : M A := fun w => (r, w).

(** [die(msg)]. *)
Definition die {A} (why : failure) : M A := lift (Die why).

(** [p.exists()], [p.read_text()], [p.write_text(text)]. *)
Definition path_exists (p : Path) : M bool := fun w => (Ok (exists_ w p), w).

Definition read_text (p : Path) : M str := fun w =>
  match w !! p with
  | Some text => (Ok text, w)
  | None => (Raise "FileNotFoundError", w)
  end.

Definition write_text (p : Path) (text : str) : M unit := fun w =>
  (Ok (), <[p := text]> w).

(** ** The script *)

Section Script.
Context `{Runtime}.

(** The separator of the file names, U+4E28. *)
Definition SEP : N := 20008%N.

(** [int(s)] for a string of decimal digits (all the script passes to it). *)
Fixpoint int_digits (acc : Z) (s : str) : option Z :=
  match s with
  | [] => Some acc
  | c :: s' => v ← decimal_digit c; int_digits (10 * acc + v) s'
  end.

Definition int (s : str) : result Z :=
  match s with
  | [] => Raise "ValueError"
  | _ => match int_digits 0 s with
         | Some n => Ok n
         | None => Raise "ValueError"
         end
  end.

(** [\.md$], the end of the file-name pattern. *)
Definition md_end (s : str) : option unit := lit (u ".md") s ≫= at_eol.

(** [re.match(r"^Week(\d{2})丨(.+)\.md$", name)]: the groups 1 and 2. *)
Definition week_filename_re (name : str) : option (str * str) :=
  r ← lit (u "Week") name;
  match r with
  | d1 :: d2 :: r' =>
      _ ← decimal_digit d1;
      _ ← decimal_digit d2;
      r'' ← lit [SEP] r';
      '(title, _) ← plus_greedy dot md_end r'';
      Some ([d1; d2], title)
  | _ => None
  end.

Definition parse_week_filename (path : Path) : result (Z * str) :=
  match week_filename_re (path_name path) with
  | None => Die UnexpectedFilename
  | Some (g1, g2) => n ← int g1; Ok (n, g2)
  end.

Definition RIGHT_BRACKET : N := 93%N.
Definition RIGHT_PAREN : N := 41%N.

(** [re.match(r"^!\[[^\]]*\]\(([^)]+)\)$", s)]: group 1. *)
Definition image_link_re (s : str) : option str :=
  r ← lit (u "![") s;
  '(_, url) ←
    star_greedy (fun c => negb (c =? RIGHT_BRACKET)%N)
      (fun r1 =>
         r2 ← lit (u "](") r1;
         '(url, _) ← plus_greedy (fun c => negb (c =? RIGHT_PAREN)%N)
                        (fun r3 => lit (u ")") r3 ≫= at_eol) r2;
         Some url)
      r;
  Some url.

(** [re.match(r"^!\[\[(.+?)\]\]$", s)]: group 1. *)
Definition embed_re (s : str) : option str :=
  r ← lit (u "![[") s;
  '(target, _) ← plus_lazy dot (fun r1 => lit (u "]]") r1 ≫= at_eol) r;
  Some target.

Fixpoint first_cover_src (lines : list str) : option str :=
  match lines with
  | [] => None
  | line :: rest =>
      let s := strip line in
      match image_link_re s with
      | Some g => Some (strip g)
      | None =>
          match embed_re s with
          | Some g => Some (u "./assets/" ++ strip g)
          | None => first_cover_src rest
          end
      end
  end.

(** [line.lstrip().startswith(">")] and [line.lstrip()[1:].lstrip()]. *)
Definition is_quote (line : str) : bool := startswith (lstrip line) (u ">").
Definition quote_text (line : str) : str := lstrip (drop 1 (lstrip line)).

(** The loop of [parse_question]: the list [q], given the flag [in_q]. *)
Fixpoint question_lines (in_q : bool) (lines : list str) : list str :=
  match lines with
  | [] => []
  | line :: rest =>
      if is_quote line then quote_text line :: question_lines true rest
      else if in_q then []
      else question_lines false rest
  end.

Definition parse_question (lines : list str) : result str :=
  let q := question_lines false lines in
  let question := strip (join [LF] (List.filter nonempty q)) in
  if nonempty question then Ok question else Die NoQuestion.

Definition DIVIDER : str := u "---".

(** The loop of [parse_content]: [divider_idx], counting from [i]. *)
Fixpoint divider_index (lines : list str) (i : nat) : option nat :=
  match lines with
  | [] => None
  | line :: rest =>
      if bool_decide (strip line = DIVIDER) then Some i
      else divider_index rest (S i)
  end.

Definition parse_content (lines : list str) : result str :=
  match divider_index lines 0 with
  | None => Die NoDivider
  | Some divider_idx =>
      let content := strip_chars [LF] (join [LF] (drop (divider_idx + 1) lines)) in
      if nonempty (strip content) then Ok content else Die EmptyContent
  end.

Definition resolve_local_path (path_str : str) : option Path :=
  if startswith path_str (u "./") then Some (joinpath ROOT (drop 2 path_str))
  else None.

(** [run(["cwebp", "-q", str(quality), ..., str(src), "-o", str(out)])]. *)
Definition run_cwebp (quality : Z) (src out : Path) : M unit := fun w =>
  match cwebp quality src out w with
  | Ran w' => (Ok (), w')
  | NotFound => (Die CommandNotFound, w)
  | Failed returncode w' => (Die (CommandFailed returncode), w')
  end.

Definition WEBP : str := u ".webp".

(** [out.parent.mkdir(parents=True, exist_ok=True)] has no effect: the
    script calls [ensure_webp] on files that exist, so the directory does. *)
Definition ensure_webp (src : Path) (quality : Z) : M Path :=
  out ← lift (with_suffix src WEBP);
  present ← path_exists out;
  if present : bool then mret out
  else run_cwebp quality src out ;; mret out.

(** [f"{week:02d}"]. *)
Definition format_02d (n : Z) : str :=
  let digits := u (pretty n) in
  if (length digits <? 2)%nat then u "0" ++ digits else digits.

(** The [for ext in ...] loop of [pick_cover_asset]. *)
Fixpoint pick_cover_loop (stem : str) (exts : list str) : M Path :=
  match exts with
  | [] => die NoCoverImage
  | ext :: rest =>
      let p := joinpath (joinpath ROOT (u "assets")) (stem ++ ext) in
      present ← path_exists p;
      if present : bool then mret p else pick_cover_loop stem rest
  end.

Definition pick_cover_asset (week : Z) (title : str) : M Path :=
  let stem := u "Week" ++ format_02d week ++ [SEP] ++ title in
  pick_cover_loop stem [WEBP; u ".png"; u ".jpg"; u ".jpeg"].

(** A literal with cased letters, under [re.IGNORECASE]. *)
Fixpoint lit_ignorecase (pattern s : str) : option str :=
  match pattern, s with
  | [], _ => Some s
  | p :: pattern', c :: s' =>
      if ignorecase_eq p c then lit_ignorecase pattern' s' else None
  | _ :: _, [] => None
  end.

(** The character class of the asset pattern: anything but white space, a
    right parenthesis, a double quote and an apostrophe. *)
Definition asset_char (c : N) : bool :=
  negb (isspace c || (c =? RIGHT_PAREN)%N || (c =? QUOTE)%N || (c =? 39)%N).

(** [\.(png|jpe?g)], the end of the pattern: the text of group 2. *)
Definition extension_re (s : str) : option str :=
  r ← lit [FULL_STOP] s;
  match lit_ignorecase (u "png") r with
  | Some _ => Some (take 3 r)
  | None =>
      match lit_ignorecase (u "jpeg") r with
      | Some _ => Some (take 4 r)
      | None =>
          match lit_ignorecase (u "jpg") r with
          | Some _ => Some (take 3 r)
          | None => None
          end
      end
  end.

(** One attempt, at the head of [s], of the pattern
    [(\./assets/C+)\.(png|jpe?g)] compiled with [re.IGNORECASE], where [C]
    is the class [asset_char]: the groups 1 and 2.  The whole match is
    group 1, a full stop and group 2. *)
Definition asset_re (s : str) : option (str * str) :=
  r0 ← lit (u "./") s;
  r1 ← lit_ignorecase (u "assets") r0;
  r2 ← lit [SLASH] r1;
  '(run, ext) ← plus_greedy asset_char extension_re r2;
  Some (take 9 s ++ run, ext).

(** The callback [repl] of [convert_and_rewrite_assets_in_content]. *)
Definition repl (quality : Z) (base ext : str) : M str :=
  let group0 := base ++ [FULL_STOP] ++ ext in
  match resolve_local_path group0 with
  | None => mret group0
  | Some src_path =>
      present ← path_exists src_path;
      if negb present then mret group0
      else
        webp_path ← ensure_webp src_path quality;
        rel ← lift (relative_to webp_path ROOT);
        mret (u "./" ++ as_posix rel)
  end.

(** [pattern.sub(repl, s)]: the matches are taken from the left and do not
    overlap; [skip] counts the characters of the last match still to be
    passed over. *)
Fixpoint sub_assets (quality : Z) (skip : nat) (s : str) : M str :=
  match s with
  | [] => mret []
  | c :: s' =>
      match skip with
      | S n => sub_assets quality n s'
      | O =>
          match asset_re s with
          | Some (base, ext) =>
              r ← repl quality base ext;
              rest ← sub_assets quality (length base + length ext) s';
              mret (r ++ rest)
          | None =>
              rest ← sub_assets quality 0 s';
              mret (c :: rest)
          end
      end
  end.

Definition convert_and_rewrite_assets_in_content (text : str) (quality : Z)
  : M str :=
  sub_assets quality 0 text.

(** [<script id="articles-data" type="application/json">] *)
Definition SCRIPT_OPEN : str :=
  u "<script id=" ++ [QUOTE] ++ u "articles-data" ++ [QUOTE]
    ++ u " type=" ++ [QUOTE] ++ u "application/json" ++ [QUOTE] ++ u ">".

Definition SCRIPT_CLOSE : str := u "</script>".
Definition SCRIPT_CLOSE_ESCAPED : str := u "<\/script>".

Definition sync_inline_json (index_html : Path) (data : Document) : M unit :=
  html ← read_text index_html;
  let marker := SCRIPT_OPEN in
  match find html marker 0 with
  | None => die NoOpeningMarker
  | Some start =>
      let start := (start + length marker)%nat in
      match find html SCRIPT_CLOSE start with
      | None => die NoClosingMarker
      | Some end_ =>
          let inline := json_dumps_compact data in
          let inline := replace inline SCRIPT_CLOSE SCRIPT_CLOSE_ESCAPED in
          write_text index_html (take start html ++ inline ++ drop end_ html)
      end
  end.

Definition ARTICLES_JSON : Path := joinpath ROOT (u "articles.json").
Definition INDEX_HTML : Path := joinpath ROOT (u "index.html").

(** The cover image: the reference found in the source when it is an
    existing local file, the asset named after the week otherwise. *)
Definition resolve_cover (cover_src : option str) (week : Z) (title : str)
  : M Path :=
  match cover_src with
  | Some (c :: cs) =>
      match resolve_local_path (c :: cs) with
      | Some p =>
          present ← path_exists p;
          if present : bool then mret p else pick_cover_asset week title
      | None => pick_cover_asset week title
      end
  | _ => pick_cover_asset week title
  end.

(** The file [main] reads: [args.source_md] itself when it is absolute,
    resolved below [ROOT] otherwise. *)
Definition source_path (source_md : str) : Path :=
  if is_absolute source_md then path_parts source_md
  else resolve (joinpath ROOT source_md).

(** [main], after [argparse] has read [source_md] and [--quality]. *)
Definition main (source_md : str) (quality : Z) : M Z :=
  let src := source_path source_md in
  present ← path_exists src;
  if negb present then die SourceNotFound
  else
    '(week, title) ← lift (parse_week_filename src);
    md ← read_text src;
    let lines := splitlines (strip_chars [LF] md) in
    let cover_src := first_cover_src lines in
    question ← lift (parse_question lines);
    text ← lift (parse_content lines);
    cover_path ← resolve_cover cover_src week title;
    cover_webp ←
      (if bool_decide (lower (path_suffix cover_path) = WEBP)
       then mret cover_path
       else ensure_webp cover_path quality);
    cover_rel ← lift (relative_to cover_webp ROOT);
    let cover_ref := u "./" ++ as_posix cover_rel in
    text ← convert_and_rewrite_assets_in_content text quality;
    stored ← read_text ARTICLES_JSON;
    match json_loads stored with
    | None => lift (Raise "JSONDecodeError")
    | Some data =>
        let article :=
          {| week := Some week; title := title; question := question;
             content := text; image := cover_ref |} in
        let data := upsert_article data article in
        write_text ARTICLES_JSON (json_dumps_indent2 data ++ [LF]) ;;
        sync_inline_json INDEX_HTML data ;;
        mret 0
    end.

End Script.

(** ** Vocabulary of the statements *)

(** The names [parse_week_filename] accepts: [Week], two decimal digits of
    values [v1] and [v2], the separator, a title that is not empty and has
    no newline, [.md], and nothing more than one newline after it. *)
Definition week_filename_shape `{Runtime} (name : str) (v1 v2 : Z) (title : str)
  : Prop :=
  exists d1 d2 tail,
    name = u "Week" ++ [d1; d2] ++ [SEP] ++ title ++ u ".md" ++ tail /\
    decimal_digit d1 = Some v1 /\ decimal_digit d2 = Some v2 /\
    title <> [] /\ (LF ∉ title) /\ (tail = [] \/ tail = [LF]).

(** [sub] occurs in [s], at the offset [length pre]. *)
Definition occurs_at (sub s : str) (pre post : str) : Prop :=
  s = pre ++ sub ++ post.

Definition occurs (sub s : str) : Prop :=
  exists pre post, occurs_at sub s pre post.

(** The occurrence at [pre] is the first one. *)
Definition first_occurrence (sub s : str) (pre post : str) : Prop :=
  occurs_at sub s pre post /\
  forall pre' post', occurs_at sub s pre' post' -> (length pre <= length pre')%nat.



(** A path component that [pathlib] keeps as it stands. *)
Definition plain_component (c : str) : Prop :=
  c <> [] /\ c <> [FULL_STOP] /\ SLASH ∉ c.

(** The file an occurrence [base.ext] of the asset pattern refers to, and
    the text [repl] writes for its converted image [out]. *)
Definition asset_source `{Runtime} (base ext : str) : Path :=
  joinpath ROOT (drop 2 (base ++ [FULL_STOP] ++ ext)).

Definition webp_reference `{Runtime} (out : Path) : result str :=
  rel ← relative_to out ROOT; Ok (u "./" ++ as_posix rel).

(** The order of the stored collection: ascending by the sort key. *)
Definition week_le (a b : Article) : Prop := week_key a <= week_key b.

(** What [upsert_article] hands to the sort: the list after the loop and
    the optional [append]. *)
Definition upserted (old : list Article) (article : Article) : list Article :=
  let '(l, replaced) := replace_loop (week article) article old in
  if replaced then l else l ++ [article].

(** The file names of the specification: [Week], two decimal digits, the
    separator, a title and [.md]. *)
Definition week_filename_pattern `{Runtime} (name : str) (d1 d2 : N) (title : str)
  : Prop :=
  name = u "Week" ++ [d1; d2] ++ [SEP] ++ title ++ u ".md" /\
  is_Some (decimal_digit d1) /\ is_Some (decimal_digit d2) /\ title <> [].

(** The text [sync_inline_json] puts between the markers: the compact
    serialisation with its closing tags escaped. *)
Definition inline_json `{Runtime} (data : Document) : str :=
  replace (json_dumps_compact data) SCRIPT_CLOSE SCRIPT_CLOSE_ESCAPED.

(** The two forms of a cover line, for a stripped line [s]: a markdown
    image [![alt](g)], whose alternative text has no right bracket and
    whose target [g] is not empty and has no right parenthesis, and an
    embed [![[g]]], whose target is not empty and has no newline. *)
Definition image_link (s g : str) : Prop :=
  exists alt, s = u "![" ++ alt ++ u "](" ++ g ++ u ")" /\
              (RIGHT_BRACKET ∉ alt) /\ g <> [] /\ RIGHT_PAREN ∉ g.

Definition embed (s g : str) : Prop :=
  s = u "![[" ++ g ++ u "]]" /\ g <> [] /\ LF ∉ g.

Definition cover_line (line : str) : Prop :=
  exists g, image_link (strip line) g \/ embed (strip line) g.

(** The ends of the two cover patterns: from the right bracket of an
    image on, and the closing brackets of an embed. *)
Definition link_end (r : str) : option unit := lit (u ")") r ≫= at_eol.

Definition link_target (r : str) : option str :=
  r2 ← lit (u "](") r;
  '(url, _) ← plus_greedy (fun c => negb (c =? RIGHT_PAREN)%N) link_end r2;
  Some url.

Definition embed_end (r : str) : option unit := lit (u "]]") r ≫= at_eol.

(** The files [pick_cover_asset] looks for, in its order of preference. *)
Definition cover_candidates `{Runtime} (week : Z) (title : str) : list Path :=
  let stem := u "Week" ++ format_02d week ++ [SEP] ++ title in
  (fun ext => joinpath (joinpath ROOT (u "assets")) (stem ++ ext))
    <$> [u ".webp"; u ".png"; u ".jpg"; u ".jpeg"].

(** [p] is the first file of [candidates] that exists in [w]. *)
Definition first_existing (w : World) (candidates : list Path) (p : Path) : Prop :=
  exists before after,
    candidates = before ++ p :: after /\
    Forall (fun q => exists_ w q = false) before /\ exists_ w p = true.

(** The encoder writes its output file and nothing else. *)
Definition writes_output_only `{Runtime} : Prop :=
  forall quality src out w,
    match cwebp quality src out w with
    | Ran w' | Failed _ w' => forall p : Path, p <> out -> w' !! p = w !! p
    | NotFound => True
    end.

(** The files a conversion may create: those whose name ends in [.webp]. *)
Definition webp_name (p : Path) : Prop :=
  exists stem, path_name p = stem ++ WEBP.

(** From [w] to [w'] nothing changed outside [outputs] but for new files
    with a name in [.webp]: no file was modified or removed. *)
Definition keeps (outputs : list Path) (w w' : World) : Prop :=
  forall p : Path,
    p ∉ outputs -> w' !! p = w !! p \/ (w !! p = None /\ webp_name p).

(** The computation keeps the files outside [outputs]. *)
Definition preserves {A} (outputs : list Path) (m : M A) : Prop :=
  forall w r w', m w = (r, w') -> keeps outputs w w'.

(** The computation dies with diagnostics of [allowed] only. *)
Definition dies_only {A} (allowed : failure -> Prop) (m : M A) : Prop :=
  forall w why w', m w = (Die why, w') -> allowed why.


(** The two halves of [main]: the first reads the source and converts the
    images, and yields the record of the week; the second stores the record
    and updates the page. *)
Definition build_article `{Runtime} (source_md : str) (quality : Z) : M Article :=
  let src := source_path source_md in
  present ← path_exists src;
  if negb present then die SourceNotFound
  else
    '(week, title) ← lift (parse_week_filename src);
    md ← read_text src;
    let lines := splitlines (strip_chars [LF] md) in
    let cover_src := first_cover_src lines in
    question ← lift (parse_question lines);
    text ← lift (parse_content lines);
    cover_path ← resolve_cover cover_src week title;
    cover_webp ←
      (if bool_decide (lower (path_suffix cover_path) = WEBP)
       then mret cover_path
       else ensure_webp cover_path quality);
    cover_rel ← lift (relative_to cover_webp ROOT);
    let cover_ref := u "./" ++ as_posix cover_rel in
    text ← convert_and_rewrite_assets_in_content text quality;
    mret {| week := Some week; title := title; question := question;
            content := text; image := cover_ref |}.

Definition publish `{Runtime} (article : Article) : M Z :=
  stored ← read_text ARTICLES_JSON;
  match json_loads stored with
  | None => lift (Raise "JSONDecodeError")
  | Some data =>
      let data := upsert_article data article in
      write_text ARTICLES_JSON (json_dumps_indent2 data ++ [LF]) ;;
      sync_inline_json INDEX_HTML data ;;
      mret 0
  end.

(** The diagnostics of the first half, and those of the page update. *)
Definition build_failure (why : failure) : Prop :=
  why <> NoOpeningMarker /\ why <> NoClosingMarker.

Definition marker_failure (why : failure) : Prop :=
  why = NoOpeningMarker \/ why = NoClosingMarker.


(** An ASCII digit that the platform reads with its usual value. *)
Definition ascii_digit `{Runtime} (d : N) : Prop :=
  (48 <= d <= 57)%N /\ decimal_digit d = Some (Z.of_N d - 48).

(** ** Sample data

    The inputs at which the theorems below are instantiated. *)

Definition sample_article (n : Z) (text : string) : Article :=
  {| week := Some n; title := u text; question := u "q"; content := u "c";
     image := u "./assets/cover.webp" |}.

(** [{"articles": [week 3, week 1], "completed": 2, "total": 52}] *)
Definition sample_document : Document :=
  {| articles := Some [sample_article 3 "three"; sample_article 1 "one"];
     fields := <["completed" := VInt 2]> (<["total" := VInt 52]> ∅) |}.

(** A platform for the examples: the ASCII part of the Unicode tables, a
    stand-in for [json] that reads the empty object and writes a fixed
    text, and the given encoder. *)
Definition sample_runtime
    (encoder : Z -> Path -> Path -> World -> run_outcome) : Runtime := {|
  ROOT := [u "site"];
  decimal_digit := fun c =>
    if ((48 <=? c) && (c <=? 57))%N then Some (Z.of_N c - 48) else None;
  ignorecase_eq := fun p c =>
    ((c =? p) || ((97 <=? p) && (p <=? 122) && (c + 32 =? p)))%N;
  lower := map (fun c => if ((65 <=? c) && (c <=? 90))%N then (c + 32)%N else c);
  resolve := fun p => p;
  cwebp := encoder;
  json_loads := fun text =>
    if bool_decide (text = u "{}")
    then Some {| articles := None; fields := ∅ |} else None;
  json_dumps_indent2 := fun _ => u "{ ... }";
  json_dumps_compact := fun _ => u "{...}"
|}.

(** A machine without [cwebp], and one whose [cwebp] writes its output. *)
Definition ascii_runtime : Runtime :=
  sample_runtime (fun _ _ _ _ => NotFound).

Definition converting_runtime : Runtime :=
  sample_runtime (fun _ _ out w => Ran (<[out := u "RIFF"]> w)).

(** [Week01丨a.md] followed by a newline, and [Week01丨a], a newline,
    [b.md]. *)
Definition name_with_newline_after : str :=
  u "Week01" ++ [SEP] ++ u "a.md" ++ [LF].
Definition name_with_newline_inside : str :=
  u "Week01" ++ [SEP] ++ (u "a" ++ [LF] ++ u "b") ++ u ".md".

(** Two file systems: one with [assets/a.png] only, one where the image
    has been converted too. *)
Definition world_with_png : World :=
  <[[u "site"; u "assets"; u "a.png"] := u "PNG"]> ∅.

Definition world_with_webp : World :=
  <[[u "site"; u "assets"; u "a.webp"] := u "RIFF"]> world_with_png.

(** The argument [source/Week01丨t.md] and the site of the example runs: a
    cover [assets/Week01丨t.webp], an empty data store and a page with the
    script element. *)
Definition sample_source_md : str := u "source/Week01" ++ [SEP] ++ u "t.md".

Definition sample_source : Path :=
  [u "site"; u "source"; u "Week01" ++ [SEP] ++ u "t.md"].

Definition sample_page : str :=
  u "<body>" ++ SCRIPT_OPEN ++ u "{}" ++ SCRIPT_CLOSE ++ u "</body>".

Definition sample_site (markdown : str) : World :=
  <[sample_source := markdown]>
    (<[[u "site"; u "assets"; u "Week01" ++ [SEP] ++ u "t.webp"] := u "RIFF"]>
       (<[[u "site"; u "articles.json"] := u "{}"]>
          (<[[u "site"; u "index.html"] := sample_page]> ∅))).

(** A source without a divider, and one whose divider line carries spaces
    around the marker. *)
Definition markdown_without_divider : str :=
  u "> why" ++ [LF] ++ u "body".

Definition markdown_with_spaced_divider : str :=
  u "> why" ++ [LF] ++ u " --- " ++ [LF] ++ u "body".

(** [source/Week39丨pause.md], the example of the script's help text. *)
Definition sample_path : Path :=
  [u "site"; u "source"; u "Week39" ++ [SEP] ++ u "pause.md"].

(** A source with a cover that is still a PNG, a question and a body that
    refers to the cover. *)
Definition sample_markdown : str :=
  u "![cover](./assets/a.png)" ++ [LF] ++ u "> why" ++ [LF; LF]
    ++ u "---" ++ [LF; LF] ++ u "see ./assets/a.png" ++ [LF].

Definition sample_site_with_png : World :=
  <[[u "site"; u "assets"; u "a.png"] := u "PNG"]> (sample_site sample_markdown).


(** * Part II: properties *)

(** ** Facts about the update loop and the sort *)

Lemma replace_loop_found wk article l l' :
  replace_loop wk article l = (l', true) ->
  exists pre a post,
    l = pre ++ a :: post /\ Forall (fun x => week x <> wk) pre /\
    week a = wk /\ l' = pre ++ article :: post.
Proof.
  revert l'. induction l as [|x l IH]; intros l' H; simpl in H.
  - discriminate.
  - destruct (decide (week x = wk)) as [Hx|Hx].
    + injection H as <-. exists [], x, l. auto.
    + destruct (replace_loop wk article l) as [r b] eqn:E.
      injection H as <- ->.
      destruct (IH r eq_refl) as (pre & a & post & -> & Hpre & Ha & ->).
      exists (x :: pre), a, post. repeat split; auto.
Qed.

Lemma replace_loop_missed wk article l l' :
  replace_loop wk article l = (l', false) ->
  l' = l /\ Forall (fun x => week x <> wk) l.
Proof.
  revert l'. induction l as [|x l IH]; intros l' H; simpl in H.
  - injection H as <-. auto.
  - destruct (decide (week x = wk)) as [Hx|Hx]; [discriminate|].
    destruct (replace_loop wk article l) as [r b] eqn:E.
    injection H as <- ->.
    destruct (IH r eq_refl) as [-> Hl]. auto.
Qed.

Lemma insert_by_week_perm a l : insert_by_week a l ≡ₚ a :: l.
Proof.
  induction l as [|b l IH]; simpl; [done|].
  destruct (week_key a <=? week_key b); [done|].
  rewrite IH. apply Permutation_swap.
Qed.

Lemma sort_by_week_perm l : sort_by_week l ≡ₚ l.
Proof.
  induction l as [|a l IH]; simpl; [done|].
  rewrite insert_by_week_perm. by rewrite IH.
Qed.


Lemma insert_by_week_sorted a l :
  StronglySorted week_le l -> StronglySorted week_le (insert_by_week a l).
Proof.
  induction l as [|b l IH]; intros Hs; simpl.
  - repeat constructor.
  - destruct (Z.leb_spec (week_key a) (week_key b)) as [Hab|Hab].
    + constructor; [done|].
      apply StronglySorted_cons in Hs as [Hb _].
      constructor; [done|].
      eapply Forall_impl; [exact Hb|]. unfold week_le. intros; lia.
    + apply StronglySorted_cons in Hs as [Hb Hs].
      apply StronglySorted_cons. split; [|by apply IH].
      rewrite insert_by_week_perm. constructor; [unfold week_le; lia|done].
Qed.

Lemma sort_by_week_sorted l : StronglySorted week_le (sort_by_week l).
Proof.
  induction l as [|a l IH]; simpl; [constructor|].
  by apply insert_by_week_sorted.
Qed.

(** Stability: the records of one week keep their order under the sort. *)
Lemma insert_by_week_filter wk a l :
  filter (fun x => week x = wk) (insert_by_week a l)
  = filter (fun x => week x = wk) (a :: l).
Proof.
  induction l as [|b l IH]; simpl; [done|].
  destruct (Z.leb_spec (week_key a) (week_key b)) as [Hab|Hab]; [done|].
  rewrite filter_cons, IH, !filter_cons.
  destruct (decide (week b = wk)) as [Hb|Hb];
    destruct (decide (week a = wk)) as [Ha|Ha]; try done.
  exfalso. unfold week_key in Hab. rewrite Ha, Hb in Hab. lia.
Qed.

Lemma sort_by_week_filter wk l :
  filter (fun x => week x = wk) (sort_by_week l)
  = filter (fun x => week x = wk) l.
Proof.
  induction l as [|a l IH]; simpl; [done|].
  by rewrite insert_by_week_filter, !filter_cons, IH.
Qed.

Lemma sort_by_week_sorted_id l :
  StronglySorted week_le l -> sort_by_week l = l.
Proof.
  induction l as [|a l IH]; intros Hs; simpl; [done|].
  apply StronglySorted_cons in Hs as [Ha Hs].
  rewrite (IH Hs). destruct l as [|b l]; simpl; [done|].
  apply Forall_cons in Ha as [Hab _]. unfold week_le in Hab.
  destruct (Z.leb_spec (week_key a) (week_key b)); [done|lia].
Qed.

Lemma replace_loop_self wk article l :
  head (filter (fun x => week x = wk) l) = Some article ->
  replace_loop wk article l = (l, true).
Proof.
  induction l as [|x l IH]; simpl; intros Hh; [done|].
  rewrite filter_cons in Hh.
  destruct (decide (week x = wk)) as [Hx|Hx].
  - simpl in Hh. by injection Hh as ->.
  - by rewrite (IH Hh).
Qed.

Lemma filter_week_none wk (l : list Article) :
  Forall (fun x => week x <> wk) l -> filter (fun x => week x = wk) l = [].
Proof.
  induction 1 as [|x l Hx _ IH]; [done|].
  by rewrite filter_cons_False.
Qed.

Lemma upsert_article_unfold data article :
  upsert_article data article =
  {| articles := Some (sort_by_week (upserted (get_articles data) article));
     fields := <["completed" :=
                 VInt (Z.of_nat (length (sort_by_week
                                          (upserted (get_articles data) article))))]>
               (fields data) |}.
Proof.
  unfold upsert_article, upserted, get_articles.
  by destruct (replace_loop _ _ _) as [l []].
Qed.

Lemma get_articles_upsert data article :
  get_articles (upsert_article data article)
  = sort_by_week (upserted (get_articles data) article).
Proof. by rewrite upsert_article_unfold. Qed.

Lemma upserted_cases old article :
  (exists pre a post,
      old = pre ++ a :: post /\
      Forall (fun x => week x <> week article) pre /\
      week a = week article /\
      upserted old article = pre ++ article :: post)
  \/ (Forall (fun x => week x <> week article) old /\
      upserted old article = old ++ [article]).
Proof.
  unfold upserted.
  destruct (replace_loop (week article) article old) as [l [|]] eqn:E.
  - left. apply replace_loop_found in E as (pre & a & post & ? & ? & ? & ?).
    by exists pre, a, post.
  - right. by apply replace_loop_missed in E as [-> ?].
Qed.

Lemma upserted_first old article :
  head (filter (fun x => week x = week article) (upserted old article))
  = Some article.
Proof.
  destruct (upserted_cases old article)
    as [(pre & a & post & _ & Hpre & _ & ->)|[Hold ->]];
    rewrite filter_app, filter_week_none by done; simpl;
    by rewrite filter_cons_True.
Qed.


(** The example of section 8 of the specification: a second week is added
    to a document that holds the first. *)
Example upsert_article_end_to_end :
  let data :=
    {| articles := Some [sample_article 1 "one"];
       fields := <["completed" := VInt 1]> (<["total" := VInt 10]> ∅) |} in
  let data' := upsert_article data (sample_article 2 "two") in
  week <$> get_articles data' = [Some 1; Some 2] /\
  fields data' !! "completed" = Some (VInt 2) /\
  fields data' !! "total" = Some (VInt 10).
Proof. by vm_compute. Qed.

(** C2. Uniqueness of the weeks is preserved: when no two records of the
    document have the same week, no two records have the same week after
    [upsert_article]. *)
Theorem upsert_article_keeps_weeks_unique (data : Document) (article : Article) :
  NoDup (week <$> get_articles data) ->
  NoDup (week <$> get_articles (upsert_article data article)).
Proof.
  intros Hnd. rewrite get_articles_upsert, sort_by_week_perm.
  destruct (upserted_cases (get_articles data) article)
    as [(pre & a & post & Hold & _ & Ha & ->)|[Hold ->]].
  - rewrite Hold in Hnd. rewrite fmap_app, fmap_cons in Hnd |- *.
    by rewrite <- Ha.
  - rewrite fmap_app. simpl. apply NoDup_app. split; [done|]. split.
    + intros w Hw Hw'. apply list_elem_of_singleton in Hw' as ->.
      apply list_elem_of_fmap in Hw as (x & Hx & Hin).
      rewrite Forall_forall in Hold. by apply (Hold x).
    + apply NoDup_singleton.
Qed.

Lemma upsert_article_keeps_weeks_unique_witness :
  NoDup (week <$> get_articles (upsert_article sample_document (sample_article 3 "new"))).
Proof.
  apply (upsert_article_keeps_weeks_unique sample_document (sample_article 3 "new")).
  by apply (bool_decide_unpack _).
Defined.

(** C9. [upsert_article] changes no top-level field of the document other
    than [articles] and [completed]; in particular [total] keeps its
    value. *)
Theorem upsert_article_frame (data : Document) (article : Article) :
  (forall key : string,
     key <> "completed" ->
     fields (upsert_article data article) !! key = fields data !! key)
  /\ fields (upsert_article data article) !! "total" = fields data !! "total".
Proof.
  rewrite upsert_article_unfold. simpl.
  split; [intros key Hkey|]; by rewrite lookup_insert_ne.
Qed.

Lemma upsert_article_frame_witness :
  fields (upsert_article sample_document (sample_article 2 "two")) !! "total"
  = Some (VInt 52).
Proof.
  destruct (upsert_article_frame sample_document (sample_article 2 "two"))
    as [Hframe _].
  rewrite (Hframe "total"); [reflexivity | discriminate].
Defined.

(** C10. [upsert_article] is idempotent: a second upsert of the same record
    leaves the document as the first one made it. *)
Theorem upsert_article_idempotent (data : Document) (article : Article) :
  upsert_article (upsert_article data article) article
  = upsert_article data article.
Proof.
  rewrite (upsert_article_unfold (upsert_article data article)).
  rewrite get_articles_upsert.
  set (l := upserted (get_articles data) article).
  assert (Hl : upserted (sort_by_week l) article = sort_by_week l).
  { unfold upserted. rewrite replace_loop_self; [done|].
    rewrite sort_by_week_filter. apply upserted_first. }
  rewrite Hl, (sort_by_week_sorted_id _ (sort_by_week_sorted l)).
  rewrite upsert_article_unfold. simpl. fold l.
  by rewrite insert_insert_eq.
Qed.

(** ** Stripping *)

Lemma lstrip_by_spec p s :
  exists a, s = a ++ lstrip_by p s /\ forallb p a = true /\
            (forall c, head (lstrip_by p s) = Some c -> p c = false).
Proof.
  induction s as [|c s (a & Hs & Ha & Hh)]; simpl.
  - exists []. by repeat split.
  - destruct (p c) eqn:Hc.
    + exists (c :: a). simpl. rewrite Hc, Ha. repeat split; [congruence|done].
    + exists []. repeat split. simpl. intros c' [= <-]. done.
Qed.

Lemma strip_by_spec p s :
  exists a b, s = a ++ strip_by p s ++ b /\
              forallb p a = true /\ forallb p b = true /\
              (forall c, head (strip_by p s) = Some c -> p c = false) /\
              (forall c, last (strip_by p s) = Some c -> p c = false).
Proof.
  unfold strip_by, rstrip_by.
  destruct (lstrip_by_spec p s) as (a & Hs & Ha & Hh).
  destruct (lstrip_by_spec p (rev (lstrip_by p s))) as (b & Hr & Hb & Hl).
  set (t := lstrip_by p s) in *. set (r := lstrip_by p (rev t)) in *.
  assert (Ht : t = rev r ++ rev b).
  { rewrite <- (rev_involutive t), Hr. by rewrite rev_app_distr. }
  exists a, (rev b). repeat split.
  - by rewrite <- Ht.
  - done.
  - rewrite forallb_forall in Hb |- *. intros x Hx. apply Hb.
    by apply in_rev.
  - intros c Hc. apply Hh. rewrite Ht.
    destruct (rev r); [done|]. exact Hc.
  - intros c Hc. apply Hl. destruct r as [|x r]; [done|].
    simpl in Hc. by rewrite last_snoc in Hc.
Qed.

Lemma nonempty_false (s : str) : nonempty s = false <-> s = [].
Proof. destruct s; simpl; split; congruence. Qed.

(** ** [parse_content] *)

Lemma divider_index_spec lines i :
  match divider_index lines i with
  | None => Forall (fun l => strip l <> DIVIDER) lines
  | Some j =>
      exists pre d post,
        lines = pre ++ d :: post /\ Forall (fun l => strip l <> DIVIDER) pre /\
        strip d = DIVIDER /\ j = (i + length pre)%nat
  end.
Proof.
  revert i. induction lines as [|l lines IH]; intros i; simpl; [done|].
  case_bool_decide as Hl.
  - exists [], l, lines. simpl. repeat split; try done; lia.
  - specialize (IH (S i)). destruct (divider_index lines (S i)) as [j|].
    + destruct IH as (pre & d & post & -> & Hpre & Hd & ->).
      exists (l :: pre), d, post. simpl.
      repeat split; try done; first [by constructor|lia].
    + by constructor.
Qed.

(** C6, as the code has it. [parse_content] looks for the first line that
    is the marker [---] once its surrounding white space is stripped.
    Without such a line it dies (no divider).  Otherwise the content is
    the lines after it joined by newlines, without the newline characters
    at its two ends (so white-space-only lines at the ends stay); the
    function dies (empty content) exactly when that content is white space
    only, and returns it otherwise. *)
Theorem parse_content_spec (lines : list str) :
  (Forall (fun l => strip l <> DIVIDER) lines /\
   parse_content lines = Die NoDivider)
  \/ (exists pre d post content,
        lines = pre ++ d :: post /\
        Forall (fun l => strip l <> DIVIDER) pre /\
        strip d = DIVIDER /\
        content = strip_chars [LF] (join [LF] post) /\
        (exists a b, join [LF] post = repeat LF a ++ content ++ repeat LF b) /\
        head content <> Some LF /\ last content <> Some LF /\
        parse_content lines
        = if bool_decide (strip content = []) then Die EmptyContent
          else Ok content).
Proof.
  unfold parse_content.
  pose proof (divider_index_spec lines 0) as Hd.
  destruct (divider_index lines 0) as [j|]; [right|by left].
  destruct Hd as (pre & d & post & -> & Hpre & Hd & ->).
  exists pre, d, post, (strip_chars [LF] (join [LF] post)).
  replace (drop (0 + length pre + 1) (pre ++ d :: post)) with post.
  2:{ rewrite drop_app_ge by lia.
      replace (0 + length pre + 1 - length pre)%nat with 1%nat by lia. done. }
  set (body := join [LF] post).
  destruct (strip_by_spec (fun c => mem c [LF]) body)
    as (a & b & Hbody & Ha & Hb & Hh & Hl).
  fold (strip_chars [LF] body) in Hbody, Hh, Hl.
  assert (Hrep : forall x : str,
             forallb (fun c => mem c [LF]) x = true -> x = repeat LF (length x)).
  { induction x as [|c x IH]; simpl; [done|].
    intros [Hc Hx]%andb_true_iff. rewrite <- (IH Hx).
    unfold mem in Hc. simpl in Hc. rewrite orb_false_r in Hc.
    by apply N.eqb_eq in Hc as ->. }
  repeat split; try done.
  - exists (length a), (length b).
    by rewrite <- (Hrep a Ha), <- (Hrep b Hb).
  - intros Hc. by specialize (Hh LF Hc).
  - intros Hc. by specialize (Hl LF Hc).
  - case_bool_decide as He.
    + by rewrite He.
    + destruct (strip (strip_chars [LF] body)); done.
Qed.

Example parse_content_example :
  parse_content [u "> why"; u ""; u "---"; u ""; u "first"; u ""; u "last"; u ""]
  = Ok (u "first" ++ [LF; LF] ++ u "last").
Proof. reflexivity. Qed.

(** C6, the claim as worded fails. No line of the first input equals the
    marker, yet the content is returned; the second input has a marker and
    a remainder that is not empty, yet the function dies; the third
    returns its content with a blank line at the start. *)
Lemma parse_content_counterexample :
  (Forall (fun l => l <> DIVIDER) [u " ---"; u "body"] /\
   parse_content [u " ---"; u "body"] = Ok (u "body"))
  /\ (join [LF] [u " "] <> [] /\
      parse_content [u "---"; u " "] = Die EmptyContent)
  /\ parse_content [u "---"; u " "; u "x"] = Ok (u " " ++ [LF] ++ u "x").
Proof.
  repeat split; try reflexivity; try discriminate.
  repeat constructor; discriminate.
Qed.

(** ** [parse_question] *)

Lemma question_lines_in_block lines :
  exists block rest,
    lines = block ++ rest /\ Forall (fun l => is_quote l = true) block /\
    (forall l, head rest = Some l -> is_quote l = false) /\
    question_lines true lines = map quote_text block.
Proof.
  induction lines as [|l lines (block & rest & -> & Hb & Hr & Hq)]; simpl.
  - exists [], []. by repeat split.
  - destruct (is_quote l) eqn:Hl.
    + exists (l :: block), rest. simpl. rewrite Hq.
      repeat split; try done. by constructor.
    + exists [], (l :: block ++ rest). simpl.
      repeat split; try done. by intros ? [= <-].
Qed.

Lemma question_lines_before_block lines :
  (Forall (fun l => is_quote l = false) lines /\
   question_lines false lines = [])
  \/ (exists pre block rest,
        lines = pre ++ block ++ rest /\
        Forall (fun l => is_quote l = false) pre /\
        block <> [] /\ Forall (fun l => is_quote l = true) block /\
        (forall l, head rest = Some l -> is_quote l = false) /\
        question_lines false lines = map quote_text block).
Proof.
  induction lines as [|l lines IH]; simpl; [left; by split|].
  destruct (is_quote l) eqn:Hl.
  - right.
    destruct (question_lines_in_block lines) as (block & rest & -> & Hb & Hr & ->).
    exists [], (l :: block), rest. simpl.
    repeat split; try done. by constructor.
  - destruct IH as [[Hall Hq]|(pre & block & rest & -> & Hpre & Hne & Hb & Hr & Hq)].
    + left. split; [by constructor|done].
    + right. exists (l :: pre), block, rest. simpl.
      repeat split; try done. by constructor.
Qed.

(** C7, as the code has it. A quote line is a line whose first character
    after leading white space is [>].  Without a quote line
    [parse_question] dies.  Otherwise it reads the first block of
    consecutive quote lines (it stops at the first line after the block),
    takes from each line the text after the marker without leading white
    space, drops the texts that are empty, joins the others by newlines
    and strips the result; it dies when nothing is left (every line of the
    block is a bare marker) and returns that text otherwise. *)
Theorem parse_question_spec (lines : list str) :
  (Forall (fun l => is_quote l = false) lines /\
   parse_question lines = Die NoQuestion)
  \/ (exists pre block rest text,
        lines = pre ++ block ++ rest /\
        Forall (fun l => is_quote l = false) pre /\
        block <> [] /\ Forall (fun l => is_quote l = true) block /\
        (forall l, head rest = Some l -> is_quote l = false) /\
        text = strip (join [LF] (List.filter nonempty (map quote_text block))) /\
        parse_question lines
        = if bool_decide (text = []) then Die NoQuestion else Ok text).
Proof.
  unfold parse_question.
  destruct (question_lines_before_block lines)
    as [[Hall ->]|(pre & block & rest & -> & Hpre & Hne & Hb & Hr & ->)].
  - left. by split.
  - right. eexists pre, block, rest, _. repeat split; try done.
    case_bool_decide as He.
    + by rewrite He.
    + by destruct (strip _).
Qed.

Example parse_question_example :
  parse_question [u "![[cover.png]]"; u "> why"; u ">"; u ">   not"; u "text"; u "> late"]
  = Ok (u "why" ++ [LF] ++ u "not").
Proof. reflexivity. Qed.

(** C7, the claim as worded fails. The first input is a quote block, yet
    nothing is returned; no line of the second input starts with the
    marker, yet its text is returned. *)
Lemma parse_question_counterexample :
  (startswith (u ">") (u ">") = true /\
   parse_question [u ">"] = Die NoQuestion)
  /\ (startswith (u " > why") (u ">") = false /\
      parse_question [u " > why"] = Ok (u "why")).
Proof. by repeat split. Qed.

(** ** The regular-expression combinators *)

Lemma startswith_app s prefix :
  startswith s prefix = true <-> exists r, s = prefix ++ r.
Proof.
  revert s. induction prefix as [|p prefix IH]; intros s; simpl.
  - split; [by exists s|reflexivity].
  - destruct s as [|c s]; simpl.
    + split; [done|]. by intros [r Hr].
    + rewrite andb_true_iff, N.eqb_eq, IH. split.
      * intros [-> [r ->]]. by exists r.
      * intros [r [= -> ->]]. split; [done|by exists r].
Qed.

Lemma lit_Some prefix s r : lit prefix s = Some r <-> s = prefix ++ r.
Proof.
  unfold lit. destruct (startswith s prefix) eqn:Hs.
  - apply startswith_app in Hs as [r' ->].
    rewrite drop_app_length. split; [by intros [= ->]|].
    by intros ->%app_inv_head.
  - split; [done|]. intros ->.
    assert (startswith (prefix ++ r) prefix = true) as Ht
      by (apply startswith_app; by exists r).
    congruence.
Qed.

Lemma plus_greedy_cons {B} p (k : str -> option B) c s :
  plus_greedy p k (c :: s)
  = if p c then
      match plus_greedy p k s with
      | Some (run, b) => Some (c :: run, b)
      | None => match k s with
                | Some b => Some ([c], b)
                | None => None
                end
      end
    else None.
Proof. reflexivity. Qed.

Lemma plus_greedy_sound {B} p (k : str -> option B) s run b :
  plus_greedy p k s = Some (run, b) ->
  run <> [] /\ forallb p run = true /\
  exists rest, s = run ++ rest /\ k rest = Some b.
Proof.
  revert run. induction s as [|c s IH]; intros run; simpl; [done|].
  destruct (p c) eqn:Hc; [|done].
  destruct (plus_greedy p k s) as [[run' b']|].
  - intros [= <- <-]. destruct (IH run' eq_refl) as (_ & Hp & rest & -> & Hk).
    simpl. rewrite Hc, Hp. repeat split; [done|]. by exists rest.
  - destruct (k s) as [b'|] eqn:Hk; [|done].
    intros [= <- <-]. simpl. rewrite Hc. repeat split; [done|]. by exists s.
Qed.

Lemma eol_iff s : eol s = true <-> s = [] \/ s = [LF].
Proof.
  destruct s as [|c [|c' s]]; simpl.
  - split; [by left|done].
  - rewrite N.eqb_eq. split; [intros ->; by right|by intros [|[= ->]]].
  - split; [done|by intros [|]].
Qed.

(** ** [parse_week_filename] *)

Section FilenameFacts.
Context `{Runtime}.

Lemma md_end_Some s : md_end s = Some () <-> exists tail,
  s = u ".md" ++ tail /\ (tail = [] \/ tail = [LF]).
Proof.
  unfold md_end. split.
  - destruct (lit (u ".md") s) as [r|] eqn:Hr; [|done].
    apply lit_Some in Hr as ->. unfold at_eol, mbind, option_bind.
    destruct (eol r) eqn:He; [|done].
    intros _. exists r. split; [done|by apply eol_iff].
  - intros (tail & -> & Ht).
    rewrite (proj2 (lit_Some (u ".md") _ tail) eq_refl).
    unfold at_eol, mbind, option_bind.
    by rewrite (proj2 (eol_iff tail) Ht).
Qed.

Lemma title_greedy title tail :
  title <> [] -> LF ∉ title -> tail = [] \/ tail = [LF] ->
  plus_greedy dot md_end (title ++ u ".md" ++ tail) = Some (title, ()).
Proof.
  intros Hne Hlf Htail. induction title as [|c title IH]; [done|].
  apply not_elem_of_cons in Hlf as [Hc Hlf].
  assert (Hdot : dot c = true).
  { unfold dot. by apply negb_true_iff, N.eqb_neq. }
  destruct title as [|c' title].
  - destruct Htail as [-> | ->]; simpl; by rewrite Hdot.
  - rewrite <- app_comm_cons, plus_greedy_cons, Hdot.
    by rewrite IH.
Qed.

Lemma week_filename_re_sound name g1 g2 :
  week_filename_re name = Some (g1, g2) ->
  exists v1 v2, week_filename_shape name v1 v2 g2 /\ int g1 = Ok (10 * v1 + v2).
Proof.
  unfold week_filename_re.
  destruct (lit (u "Week") name) as [r|] eqn:Hw; simpl; [|done].
  apply lit_Some in Hw as ->.
  destruct r as [|d1 [|d2 r]]; try done.
  destruct (decimal_digit d1) as [v1|] eqn:Hd1; simpl; [|done].
  destruct (decimal_digit d2) as [v2|] eqn:Hd2; simpl; [|done].
  destruct (lit [SEP] r) as [r'|] eqn:Hs; simpl; [|done].
  apply lit_Some in Hs as ->.
  destruct (plus_greedy dot md_end r') as [[title []]|] eqn:Hg; simpl; [|done].
  intros [= <- <-].
  apply plus_greedy_sound in Hg as (Hne & Hdot & rest & -> & Hrest).
  apply md_end_Some in Hrest as (tail & -> & Htail).
  exists v1, v2. split.
  - exists d1, d2, tail. repeat split; try done.
    intros Hin. rewrite forallb_forall in Hdot.
    apply list_elem_of_In, Hdot in Hin. done.
  - simpl. rewrite Hd1. simpl. rewrite Hd2. simpl. f_equal; lia.
Qed.

Lemma week_filename_re_complete name v1 v2 title :
  week_filename_shape name v1 v2 title ->
  exists g1, week_filename_re name = Some (g1, title).
Proof.
  intros (d1 & d2 & tail & -> & Hd1 & Hd2 & Hne & Hlf & Htail).
  exists [d1; d2]. unfold week_filename_re.
  rewrite (proj2 (lit_Some (u "Week") _ _) eq_refl).
  cbn [mbind option_bind app].
  rewrite Hd1, Hd2. cbn [mbind option_bind].
  rewrite (proj2 (lit_Some [SEP] (SEP :: _) _) eq_refl).
  cbn [mbind option_bind].
  by rewrite title_greedy.
Qed.

(** The names the parser accepts and what it returns for them. *)
Lemma parse_week_filename_cases (path : Path) :
  (exists v1 v2 title,
      week_filename_shape (path_name path) v1 v2 title /\
      parse_week_filename path = Ok (10 * v1 + v2, title))
  \/ ((forall v1 v2 title, ~ week_filename_shape (path_name path) v1 v2 title) /\
      parse_week_filename path = Die UnexpectedFilename).
Proof.
  unfold parse_week_filename.
  destruct (week_filename_re (path_name path)) as [[g1 g2]|] eqn:Hre.
  - left. apply week_filename_re_sound in Hre as (v1 & v2 & Hshape & ->).
    by exists v1, v2, g2.
  - right. split; [|done]. intros v1 v2 title Hshape.
    apply week_filename_re_complete in Hshape as [g1 Hg1]. congruence.
Qed.

(** C8, as the code has it. For a path whose name has no newline: when the
    name is [Week], two decimal digits, the separator U+4E28, a non-empty
    title and [.md], [parse_week_filename] returns the number the two
    digits denote and the title; when it is not of that form, the parser
    dies with the diagnostic of an unexpected file name. *)
Theorem parse_week_filename_spec (path : Path) :
  LF ∉ path_name path ->
  (exists d1 d2 v1 v2 title,
      week_filename_pattern (path_name path) d1 d2 title /\
      decimal_digit d1 = Some v1 /\ decimal_digit d2 = Some v2 /\
      parse_week_filename path = Ok (10 * v1 + v2, title))
  \/ ((forall d1 d2 title, ~ week_filename_pattern (path_name path) d1 d2 title) /\
      parse_week_filename path = Die UnexpectedFilename).
Proof.
  intros Hlf.
  destruct (parse_week_filename_cases path)
    as [(v1 & v2 & title & Hshape & Hok)|[Hnone Hdie]].
  - left. destruct Hshape as (d1 & d2 & tail & Hname & Hd1 & Hd2 & Hne & _ & Htail).
    exists d1, d2, v1, v2, title. repeat split; try done.
    destruct Htail as [-> | ->]; [by rewrite app_nil_r in Hname|].
      exfalso. apply Hlf. rewrite Hname, !elem_of_app.
      do 5 right. apply list_elem_of_singleton. done.
  - right. split; [|done]. intros d1 d2 title (Hname & [v1 Hd1] & [v2 Hd2] & Hne).
    apply (Hnone v1 v2 title). exists d1, d2, [].
    rewrite app_nil_r. repeat split; try done; [|by left].
    intros Hin. apply Hlf. rewrite Hname, !elem_of_app. by do 3 right; left.
Qed.

End FilenameFacts.

Example parse_week_filename_example :
  @parse_week_filename ascii_runtime sample_path = Ok (39, u "pause").
Proof. reflexivity. Qed.

Lemma parse_week_filename_spec_witness :
  (exists d1 d2 v1 v2 title,
      @week_filename_pattern ascii_runtime (path_name sample_path) d1 d2 title /\
      @decimal_digit ascii_runtime d1 = Some v1 /\
      @decimal_digit ascii_runtime d2 = Some v2 /\
      @parse_week_filename ascii_runtime sample_path = Ok (10 * v1 + v2, title))
  \/ ((forall d1 d2 title,
         ~ @week_filename_pattern ascii_runtime (path_name sample_path) d1 d2 title) /\
      @parse_week_filename ascii_runtime sample_path = Die UnexpectedFilename).
Proof.
  apply (@parse_week_filename_spec ascii_runtime sample_path).
  by apply (bool_decide_unpack _).
Defined.

(** C8, the claim as worded fails. The second name is [Week], two digits,
    the separator, a title and [.md], yet the parser dies on it; the first
    name does not end in [.md], yet the parser returns week 1 and the
    title [a]. *)
Lemma parse_week_filename_counterexample :
  (last name_with_newline_after = Some LF /\
   @parse_week_filename ascii_runtime [u "source"; name_with_newline_after]
   = Ok (1, u "a"))
  /\ (name_with_newline_inside
      = u "Week" ++ u "01" ++ [SEP] ++ (u "a" ++ [LF] ++ u "b") ++ u ".md" /\
      @parse_week_filename ascii_runtime [u "source"; name_with_newline_inside]
      = Die UnexpectedFilename).
Proof. by repeat split. Qed.

(** ** [str.find] and [str.replace] *)

Lemma find_at_unfold sub s pos :
  find_at sub s pos
  = if startswith s sub then Some pos
    else match s with
         | [] => None
         | _ :: s' => find_at sub s' (S pos)
         end.
Proof. by destruct s. Qed.

Lemma occurs_at_head sub s post :
  occurs_at sub s [] post -> startswith s sub = true.
Proof. intros ->. apply startswith_app. by exists post. Qed.

Lemma find_at_spec sub s pos :
  match find_at sub s pos with
  | Some j => exists pre post,
      first_occurrence sub s pre post /\ j = (pos + length pre)%nat
  | None => ~ occurs sub s
  end.
Proof.
  revert pos. induction s as [|c s IH]; intros pos; rewrite find_at_unfold.
  - destruct (startswith [] sub) eqn:Hs.
    + apply startswith_app in Hs as [r Hr].
      exists [], r. repeat split; [done|simpl; lia|simpl; lia].
    + intros (pre & post & Ho). destruct pre; [|done].
      apply occurs_at_head in Ho. congruence.
  - destruct (startswith (c :: s) sub) eqn:Hs.
    + apply startswith_app in Hs as [r Hr].
      exists [], r. repeat split; [done|simpl; lia|simpl; lia].
    + specialize (IH (S pos)). destruct (find_at sub s (S pos)) as [j|].
      * destruct IH as (pre & post & [Ho Hmin] & ->).
        exists (c :: pre), post. repeat split.
        -- unfold occurs_at in *. simpl. by rewrite Ho.
        -- intros [|c' pre'] post' Ho'.
           ++ apply occurs_at_head in Ho'. congruence.
           ++ injection Ho' as <- Ho'. specialize (Hmin pre' post' Ho').
              simpl. lia.
        -- simpl. lia.
      * intros ([|c' pre] & post & Ho).
        -- apply occurs_at_head in Ho. congruence.
        -- injection Ho as <- Ho. apply IH. by exists pre, post.
Qed.

Lemma replace_from_skip old new k s :
  replace_from old new k s = replace_from old new 0 (drop k s).
Proof.
  revert k. induction s as [|c s IH]; intros [|k]; try done.
  simpl. by rewrite IH.
Qed.

Lemma replace_cons old new c s :
  replace (c :: s) old new
  = if startswith (c :: s) old
    then new ++ replace (drop (length old - 1) s) old new
    else c :: replace s old new.
Proof.
  unfold replace. cbn [replace_from].
  destruct (startswith (c :: s) old); [|done].
  by rewrite replace_from_skip.
Qed.

Lemma replace_hit old new r :
  old <> [] -> replace (old ++ r) old new = new ++ replace r old new.
Proof.
  intros Hold. destruct old as [|o old]; [done|].
  rewrite <- app_comm_cons, replace_cons.
  assert (startswith (o :: old ++ r) (o :: old) = true) as ->.
  { apply startswith_app. by exists r. }
  replace (length (o :: old) - 1)%nat with (length old) by (simpl; lia).
  by rewrite drop_app_length.
Qed.



(** ** Escaping the closing tag *)

Lemma script_close_chars :
  SCRIPT_CLOSE = LESS_THAN :: u "/script>" /\
  SCRIPT_CLOSE_ESCAPED = LESS_THAN :: u "\/script>".
Proof. by split. Qed.

(** A text without [<] that starts the escaped string starts the original. *)
Lemma escaped_prefix_reflects (v : str) :
  LESS_THAN ∉ v ->
  forall s r, replace s SCRIPT_CLOSE SCRIPT_CLOSE_ESCAPED = v ++ r ->
              exists r', s = v ++ r'.
Proof.
  induction v as [|x v IH]; intros Hv s r Hs; [by exists s|].
  apply not_elem_of_cons in Hv as [Hx Hv].
  destruct s as [|c s]; [done|].
  rewrite replace_cons in Hs.
  destruct (startswith (c :: s) SCRIPT_CLOSE).
  - rewrite (proj2 script_close_chars) in Hs. by injection Hs as <- _.
  - injection Hs as -> Hs. destruct (IH Hv s r Hs) as [r' ->]. by exists r'.
Qed.

Lemma escaped_no_close_bounded (n : nat) :
  forall s, (length s < n)%nat ->
            ~ occurs SCRIPT_CLOSE (replace s SCRIPT_CLOSE SCRIPT_CLOSE_ESCAPED).
Proof.
  induction n as [|n IH]; intros s Hlen; [lia|].
  destruct s as [|c s]; [by intros ([|] & post & Ho)|].
  rewrite replace_cons.
  destruct (startswith (c :: s) SCRIPT_CLOSE) eqn:Hs.
  - apply startswith_app in Hs as [r Hr].
    assert (Hdrop : drop (length SCRIPT_CLOSE - 1) s = r).
    { injection Hr as _ ->. reflexivity. }
    rewrite Hdrop.
    assert (Hr_len : (length r < n)%nat).
    { apply (f_equal length) in Hr. rewrite length_app in Hr.
      simpl in Hr, Hlen. lia. }
    specialize (IH r Hr_len).
    remember (replace r SCRIPT_CLOSE SCRIPT_CLOSE_ESCAPED) as t eqn:Ht.
    clear Ht Hr Hdrop Hlen Hr_len.
    intros (pre & post & Ho). unfold occurs_at in Ho.
    do 10 (destruct pre as [|? pre]; [by injection Ho|]).
    apply IH. exists pre, post.
    by injection Ho as _ _ _ _ _ _ _ _ _ _ ->.
  - intros ([|p pre] & post & Ho); unfold occurs_at in Ho.
    + injection Ho as -> Ho.
      assert (Hv : LESS_THAN ∉ u "/script>").
      { intros Hin. by repeat (apply elem_of_cons in Hin as [|Hin]; [done|]);
                       apply elem_of_nil in Hin. }
      destruct (escaped_prefix_reflects _ Hv s post Ho) as [r' ->].
      enough (Htrue : true = false) by done.
      rewrite <- Hs. symmetry. apply startswith_app. by exists r'.
    + injection Ho as -> Ho.
      apply (IH s); [simpl in Hlen; lia|]. by exists pre, post.
Qed.

(** After the replacement no closing tag is left. *)
Lemma escaped_no_close (s : str) :
  ~ occurs SCRIPT_CLOSE (replace s SCRIPT_CLOSE SCRIPT_CLOSE_ESCAPED).
Proof. apply (escaped_no_close_bounded (S (length s))). lia. Qed.

(** A clean text followed by a closing tag: the tag that follows is the
    first one. *)
Lemma close_after_clean (inline post : str) :
  ~ occurs SCRIPT_CLOSE inline ->
  first_occurrence SCRIPT_CLOSE (inline ++ SCRIPT_CLOSE ++ post) inline post.
Proof.
  intros Hclean. split; [done|]. intros pre' post' Ho. unfold occurs_at in Ho.
  destruct (decide (length inline <= length pre')%nat) as [|Hlt]; [done|].
  exfalso. apply app_eq_inv in Ho as [(k & -> & Hk)|(k & -> & Hk)].
  - destruct k as [|k0 k]; [rewrite app_nil_r in Hlt; lia|].
    do 8 (destruct k as [|? k]; [by injection Hk|]).
    apply Hclean. exists pre', k. unfold occurs_at. do 2 f_equal.
    by injection Hk as <- <- <- <- <- <- <- <- <- _.
  - rewrite length_app in Hlt. lia.
Qed.

(** ** [sync_inline_json] *)

Lemma find_0_spec s sub :
  match find s sub 0 with
  | Some j => exists pre post, first_occurrence sub s pre post /\ j = length pre
  | None => ~ occurs sub s
  end.
Proof.
  unfold find. simpl. rewrite drop_0.
  pose proof (find_at_spec sub s 0) as Hf.
  destruct (find_at sub s 0); [|done].
  destruct Hf as (pre & post & Hfirst & ->). by exists pre, post.
Qed.

Lemma find_after_spec pre marker rest sub :
  match find (pre ++ marker ++ rest) sub (length pre + length marker) with
  | Some j => exists mid post,
      first_occurrence sub rest mid post /\
      j = (length pre + length marker + length mid)%nat
  | None => ~ occurs sub rest
  end.
Proof.
  unfold find. rewrite !length_app.
  destruct (Nat.leb_spec (length pre + length marker)
                         (length pre + (length marker + length rest))); [|lia].
  rewrite app_assoc, drop_app_length'; [|by rewrite length_app].
  pose proof (find_at_spec sub rest (length pre + length marker)) as Hf.
  destruct (find_at sub rest (length pre + length marker)); [|done].
  destruct Hf as (mid & post & Hfirst & ->). by exists mid, post.
Qed.


Section SyncFacts.
Context `{Runtime}.


End SyncFacts.

Example sync_inline_json_example :
  @sync_inline_json ascii_runtime [u "site"; u "index.html"] sample_document
    (<[[u "site"; u "index.html"] := sample_page]> ∅)
  = (Ok (),
     <[[u "site"; u "index.html"] :=
         u "<body>" ++ SCRIPT_OPEN ++ u "{...}" ++ SCRIPT_CLOSE ++ u "</body>"]> ∅).
Proof. by vm_compute. Qed.

(** ** Paths *)

Lemma join_cons_cons sep x y l :
  join sep (x :: y :: l) = x ++ sep ++ join sep (y :: l).
Proof. done. Qed.



Lemma split_on_no_sep sep cur x r :
  sep ∉ x -> split_on sep cur (x ++ r) = split_on sep (cur ++ x) r.
Proof.
  revert cur. induction x as [|c x IH]; intros cur Hx; simpl.
  - by rewrite app_nil_r.
  - apply not_elem_of_cons in Hx as [Hc Hx].
    destruct (N.eqb_spec c sep) as [->|_]; [done|].
    rewrite IH by done. by rewrite <- app_assoc.
Qed.

Lemma split_on_join sep comps :
  comps <> [] -> Forall (fun c => sep ∉ c) comps ->
  split_on sep [] (join [sep] comps) = comps.
Proof.
  intros Hne Hall. induction Hall as [|x l Hx Hl IH]; [done|].
  destruct l as [|y l].
  - simpl. rewrite <- (app_nil_r x) at 1. by rewrite split_on_no_sep.
  - rewrite join_cons_cons, split_on_no_sep by done.
    simpl. rewrite N.eqb_refl. f_equal. by apply IH.
Qed.

Lemma filter_keeps_all {A} (f : A -> bool) l :
  Forall (fun x => f x = true) l -> List.filter f l = l.
Proof.
  induction 1 as [|x l Hx _ IH]; simpl; [done|]. by rewrite Hx, IH.
Qed.

Lemma path_parts_join comps :
  Forall plain_component comps -> path_parts (join [SLASH] comps) = comps.
Proof.
  intros Hall. unfold path_parts. destruct comps as [|x l]; [done|].
  rewrite split_on_join; [|done|].
  - apply filter_keeps_all. eapply Forall_impl; [exact Hall|].
    intros c (Hne & Hdot & _). simpl.
    destruct c; [done|]. simpl. by rewrite bool_decide_eq_false_2.
  - eapply Forall_impl; [exact Hall|]. by intros c (_ & _ & ?).
Qed.

Lemma is_absolute_join comps :
  Forall plain_component comps -> is_absolute (join [SLASH] comps) = false.
Proof.
  intros Hall. destruct Hall as [|x l (Hne & _ & Hs) _]; [done|].
  destruct x as [|c x]; [done|].
  apply not_elem_of_cons in Hs as [Hc _].
  unfold is_absolute. destruct l; simpl; apply andb_false_iff; left;
    by apply N.eqb_neq.
Qed.





Lemma relative_to_app root p : relative_to (root ++ p) root = Ok p.
Proof.
  induction root as [|r root IH]; simpl.
  - by destruct p.
  - by rewrite bool_decide_eq_true_2.
Qed.

(** ** [convert_and_rewrite_assets_in_content] *)

Section AssetFacts.
Context `{Runtime}.

Lemma lit_ignorecase_Some pattern s r :
  lit_ignorecase pattern s = Some r ->
  exists m, s = m ++ r /\ length m = length pattern.
Proof.
  revert s. induction pattern as [|p pattern IH]; intros s; simpl.
  - intros [= ->]. by exists [].
  - destruct s as [|c s]; [done|].
    destruct (ignorecase_eq p c); [|done].
    intros (m & -> & Hm)%IH. exists (c :: m). simpl. by rewrite Hm.
Qed.

Lemma extension_re_sound s ext :
  extension_re s = Some ext -> exists rest, s = [FULL_STOP] ++ ext ++ rest.
Proof.
  unfold extension_re.
  destruct (lit [FULL_STOP] s) as [r|] eqn:Hr; [|done].
  apply lit_Some in Hr as ->. cbn [mbind option_bind].
  intros Hext.
  assert (exists n, ext = take n r) as [n ->].
  { repeat (destruct (lit_ignorecase _ r); [injection Hext as <-; by eexists|]).
    done. }
  exists (drop n r). by rewrite take_drop.
Qed.

Lemma asset_re_sound s base ext :
  asset_re s = Some (base, ext) ->
  exists rest, s = base ++ [FULL_STOP] ++ ext ++ rest.
Proof.
  unfold asset_re.
  destruct (lit (u "./") s) as [r0|] eqn:H0; [|done].
  apply lit_Some in H0 as ->. cbn [mbind option_bind].
  destruct (lit_ignorecase (u "assets") r0) as [r1|] eqn:H1; [|done].
  apply lit_ignorecase_Some in H1 as (m & -> & Hm). cbn [mbind option_bind].
  destruct (lit [SLASH] r1) as [r2|] eqn:H2; [|done].
  apply lit_Some in H2 as ->. cbn [mbind option_bind].
  destruct (plus_greedy asset_char extension_re r2) as [[run e]|] eqn:Hg;
    [|done].
  cbn [mbind option_bind]. intros [= <- <-].
  apply plus_greedy_sound in Hg as (_ & _ & rest & -> & Hrest).
  apply extension_re_sound in Hrest as [rest' ->].
  exists rest'.
  assert (Ht : take 7 (m ++ SLASH :: run ++ [FULL_STOP] ++ e ++ rest')
               = m ++ [SLASH]).
  { change (SLASH :: run ++ [FULL_STOP] ++ e ++ rest')
      with ([SLASH] ++ run ++ [FULL_STOP] ++ e ++ rest').
    rewrite app_assoc, take_app_length'; [done|]. by rewrite length_app, Hm. }
  cbn [take app u map String.list_ascii_of_string] in Ht |- *.
  rewrite Ht. by rewrite <- !app_assoc.
Qed.

Lemma asset_re_rest c s base ext :
  asset_re (c :: s) = Some (base, ext) ->
  c :: s = base ++ [FULL_STOP] ++ ext ++ drop (length base + length ext) s.
Proof.
  intros [rest Hs]%asset_re_sound.
  assert (Hd : drop (length base + length ext) s = rest).
  { change s with (drop 1 (c :: s)). rewrite Hs, drop_drop.
    rewrite (app_assoc base), (app_assoc (base ++ _)).
    apply drop_app_length'. rewrite !length_app. simpl. lia. }
  by rewrite Hd.
Qed.





Lemma asset_re_local s base ext :
  asset_re s = Some (base, ext) ->
  resolve_local_path (base ++ [FULL_STOP] ++ ext) = Some (asset_source base ext).
Proof.
  unfold asset_re.
  destruct (lit (u "./") s) as [r0|] eqn:H0; [|done].
  apply lit_Some in H0 as ->. cbn [mbind option_bind].
  destruct (lit_ignorecase (u "assets") r0) as [r1|]; [|done].
  cbn [mbind option_bind].
  destruct (lit [SLASH] r1) as [r2|]; [|done]. cbn [mbind option_bind].
  destruct (plus_greedy asset_char extension_re r2) as [[run e]|]; [|done].
  cbn [mbind option_bind]. by intros [= <- <-].
Qed.


Lemma repl_missing quality base ext w :
  resolve_local_path (base ++ [FULL_STOP] ++ ext) = Some (asset_source base ext) ->
  exists_ w (asset_source base ext) = false ->
  repl quality base ext w = (Ok (base ++ [FULL_STOP] ++ ext), w).
Proof.
  intros Hlocal Hmissing. unfold repl. rewrite Hlocal.
  unfold mbind, M_bind, path_exists. by rewrite Hmissing.
Qed.



(** When none of the files the text refers to exists, the text comes back
    byte for byte and no file is touched. *)
Lemma sub_assets_missing quality w s k :
  (forall pre s' base ext,
      s = pre ++ s' -> asset_re s' = Some (base, ext) ->
      exists_ w (asset_source base ext) = false) ->
  sub_assets quality k s w = (Ok (drop k s), w).
Proof.
  revert k. induction s as [|c s IH]; intros k Hmissing; [by destruct k|].
  assert (Htail : forall pre s' base ext,
             s = pre ++ s' -> asset_re s' = Some (base, ext) ->
             exists_ w (asset_source base ext) = false).
  { intros pre s' base ext -> Hre. by apply (Hmissing (c :: pre) s'). }
  destruct k as [|k]; [|by apply IH].
  cbn [sub_assets drop].
  destruct (asset_re (c :: s)) as [[base ext]|] eqn:Hre.
  - unfold mbind, M_bind.
    rewrite repl_missing;
      [|by eapply asset_re_local|by apply (Hmissing [] (c :: s))].
    rewrite (IH _ Htail). unfold mret, M_ret. do 2 f_equal.
    rewrite <- app_assoc. symmetry. by apply asset_re_rest.
  - unfold mbind, M_bind. rewrite (IH _ Htail). by rewrite drop_0.
Qed.

Lemma convert_missing_files text quality w :
  (forall pre s' base ext,
      text = pre ++ s' -> asset_re s' = Some (base, ext) ->
      exists_ w (asset_source base ext) = false) ->
  convert_and_rewrite_assets_in_content text quality w = (Ok text, w).
Proof.
  intros Hmissing. unfold convert_and_rewrite_assets_in_content.
  by rewrite (sub_assets_missing _ _ _ 0 Hmissing), drop_0.
Qed.


End AssetFacts.

(** The converted image replaces its two references; the reference to a
    file that does not exist stays. *)
Example convert_and_rewrite_assets_in_content_example :
  @convert_and_rewrite_assets_in_content converting_runtime
    (u "![a](./assets/a.png) (./assets/b.jpg) ./assets/a.PNG") 82 world_with_png
  = (Ok (u "![a](./assets/a.webp) (./assets/b.jpg) ./assets/a.PNG"),
     world_with_webp).
Proof. by vm_compute. Qed.


(** ** [main] *)

Lemma parse_content_no_divider lines :
  Forall (fun l => strip l <> DIVIDER) lines ->
  parse_content lines = Die NoDivider.
Proof.
  intros Hall. unfold parse_content.
  pose proof (divider_index_spec lines 0) as Hd.
  destruct (divider_index lines 0) as [j|]; [|done].
  destruct Hd as (pre & d & post & -> & _ & Hd & _).
  apply Forall_app in Hall as [_ Hall]. by apply Forall_cons in Hall as [? _].
Qed.

Section MainFacts.
Context `{Runtime}.

(** C3, as the code has it. When no line of the source is the marker [---]
    once its surrounding white space is stripped, [main] ends with exit
    status 1 and leaves every file, the data store and the page included,
    as it was. *)
Theorem main_without_divider (source_md : str) (quality : Z) (w : World) :
  (forall md, w !! source_path source_md = Some md ->
              Forall (fun l => strip l <> DIVIDER)
                     (splitlines (strip_chars [LF] md))) ->
  exists outcome,
    main source_md quality w = (outcome, w) /\
    exit_status outcome = 1 /\
    snd (main source_md quality w) !! ARTICLES_JSON = w !! ARTICLES_JSON /\
    snd (main source_md quality w) !! INDEX_HTML = w !! INDEX_HTML.
Proof.
  intros Hmd.
  enough (exists outcome,
             main source_md quality w = (outcome, w) /\ exit_status outcome = 1)
    as (outcome & Hmain & Hexit).
  { exists outcome. by rewrite Hmain. }
  unfold main. cbv zeta. set (src := source_path source_md) in *.
  unfold mbind, M_bind, path_exists, exists_, lift, read_text, die.
  destruct (w !! src) as [md|] eqn:Hsrc.
  - rewrite bool_decide_eq_true_2 by by eexists.
    cbn [negb].
    destruct (parse_week_filename src) as [[week title]| |];
      [|by eexists|by eexists].
    rewrite Hsrc.
    destruct (parse_question _) as [question| |]; [|by eexists|by eexists].
    rewrite parse_content_no_divider by by apply Hmd.
    by eexists.
  - rewrite bool_decide_eq_false_2 by (by intros [? ?]).
    by eexists.
Qed.

End MainFacts.

Lemma main_without_divider_witness :
  exists outcome,
    @main ascii_runtime sample_source_md 82 (sample_site markdown_without_divider)
    = (outcome, sample_site markdown_without_divider) /\
    exit_status outcome = 1.
Proof.
  destruct (@main_without_divider ascii_runtime sample_source_md 82
              (sample_site markdown_without_divider))
    as (outcome & Hmain & Hexit & _).
  - intros md Hmd. vm_compute in Hmd. injection Hmd as <-.
    repeat constructor; by vm_compute.
  - by exists outcome.
Defined.

(** A complete run: the cover is converted, the record is stored and the
    page is synchronised. *)
Example main_example :
  let '(outcome, w) :=
    @main converting_runtime sample_source_md 82 sample_site_with_png in
  outcome = Ok 0 /\
  exists_ w [u "site"; u "assets"; u "a.webp"] = true /\
  w !! [u "site"; u "articles.json"] = Some (u "{ ... }" ++ [LF]) /\
  w !! [u "site"; u "index.html"]
  = Some (u "<body>" ++ SCRIPT_OPEN ++ u "{...}" ++ SCRIPT_CLOSE ++ u "</body>").
Proof. by vm_compute. Qed.

(** C3, the claim as worded fails. No line of the source equals the
    marker (the divider line carries spaces), yet the run succeeds and
    rewrites the data store and the page. *)
Lemma main_counterexample :
  Forall (fun l => l <> DIVIDER)
         (splitlines (strip_chars [LF] markdown_with_spaced_divider))
  /\ exit_status
       (fst (@main ascii_runtime sample_source_md 82
               (sample_site markdown_with_spaced_divider))) = 0
  /\ snd (@main ascii_runtime sample_source_md 82
            (sample_site markdown_with_spaced_divider))
       !! [u "site"; u "articles.json"]
     = Some (u "{ ... }" ++ [LF])
  /\ snd (@main ascii_runtime sample_source_md 82
            (sample_site markdown_with_spaced_divider))
       !! [u "site"; u "index.html"]
     = Some (u "<body>" ++ SCRIPT_OPEN ++ u "{...}" ++ SCRIPT_CLOSE ++ u "</body>").
Proof.
  split; [repeat constructor; by vm_compute|].
  by vm_compute.
Qed.

(** * Part III: further properties of the script *)

(** ** More on [upsert_article] *)

(** X1. After an upsert, the first record stored under the week of the new
    record is the new record; when the weeks of the document were unique,
    it is the only record of that week. *)
Theorem upsert_article_lookup (data : Document) (article : Article) :
  let stored :=
    filter (fun x => week x = week article)
           (get_articles (upsert_article data article)) in
  head stored = Some article /\
  (NoDup (week <$> get_articles data) -> stored = [article]).
Proof.
  cbv zeta. rewrite get_articles_upsert, sort_by_week_filter.
  split; [apply upserted_first|]. intros Hnd.
  destruct (upserted_cases (get_articles data) article)
    as [(pre & a & post & Hold & Hpre & Ha & ->)|[Hold ->]].
  - rewrite filter_app, filter_week_none, filter_cons_True by done.
    simpl. f_equal. apply filter_week_none.
    rewrite Hold, fmap_app, fmap_cons in Hnd.
    apply NoDup_app in Hnd as (_ & _ & Hnd). apply NoDup_cons in Hnd as [Hnotin _].
    apply Forall_forall. intros x Hx Hwx. apply Hnotin.
    rewrite Ha, <- Hwx. by apply list_elem_of_fmap_2.
  - rewrite filter_app, filter_week_none by done. simpl.
    by rewrite filter_cons_True.
Qed.

(** X2. An upsert does not touch the records of the other weeks: for every
    week other than the new record's, the records of that week are the
    same after the upsert, in the same order. *)
Theorem upsert_article_other_weeks
    (data : Document) (article : Article) (wk : option Z) :
  wk <> week article ->
  filter (fun x => week x = wk) (get_articles (upsert_article data article))
  = filter (fun x => week x = wk) (get_articles data).
Proof.
  intros Hwk. rewrite get_articles_upsert, sort_by_week_filter.
  destruct (upserted_cases (get_articles data) article)
    as [(pre & a & post & -> & _ & Ha & ->)|[_ ->]].
  - rewrite !filter_app, !filter_cons_False; [done|congruence|congruence].
  - rewrite filter_app, filter_cons_False by congruence.
    by rewrite filter_nil, app_nil_r.
Qed.

Lemma upsert_article_other_weeks_witness :
  filter (fun x => week x = Some 1)
         (get_articles (upsert_article sample_document (sample_article 3 "new")))
  = filter (fun x => week x = Some 1) (get_articles sample_document).
Proof.
  apply (upsert_article_other_weeks sample_document (sample_article 3 "new")).
  discriminate.
Defined.

(** The sort is stable for the sort key too: the records of one key keep
    their order. *)
Lemma insert_by_week_filter_key k a l :
  filter (fun x => week_key x = k) (insert_by_week a l)
  = filter (fun x => week_key x = k) (a :: l).
Proof.
  induction l as [|b l IH]; simpl; [done|].
  destruct (Z.leb_spec (week_key a) (week_key b)) as [Hab|Hab]; [done|].
  rewrite filter_cons, IH, !filter_cons.
  destruct (decide (week_key b = k)) as [Hb|Hb];
    destruct (decide (week_key a = k)) as [Ha|Ha]; try done.
  lia.
Qed.

Lemma sort_by_week_filter_key k l :
  filter (fun x => week_key x = k) (sort_by_week l)
  = filter (fun x => week_key x = k) l.
Proof.
  induction l as [|a l IH]; simpl; [done|].
  by rewrite insert_by_week_filter_key, !filter_cons, IH.
Qed.

(** A sorted list is determined by its records of each key, in order. *)
Lemma sorted_by_key_unique l1 l2 :
  StronglySorted week_le l1 -> StronglySorted week_le l2 ->
  (forall k, filter (fun x => week_key x = k) l1
             = filter (fun x => week_key x = k) l2) ->
  l1 = l2.
Proof.
  revert l2. induction l1 as [|a l1 IH]; intros [|b l2] H1 H2 Hf.
  - done.
  - specialize (Hf (week_key b)). by rewrite filter_cons_True in Hf.
  - specialize (Hf (week_key a)). by rewrite filter_cons_True in Hf.
  - apply StronglySorted_cons in H1 as [Ha H1].
    apply StronglySorted_cons in H2 as [Hb H2].
    assert (week_key a = week_key b) as Hk.
    { apply Z.le_antisymm.
      - pose proof (Hf (week_key b)) as E.
        rewrite (filter_cons_True _ b) in E by done.
        assert (b ∈ a :: l1) as Hin.
        { eapply (proj1 (list_elem_of_filter (fun x => week_key x = week_key b) _ _)).
          rewrite E. left. }
        apply elem_of_cons in Hin as [->|Hin]; [done|].
        by apply (proj1 (Forall_forall _ _) Ha).
      - pose proof (Hf (week_key a)) as E.
        rewrite (filter_cons_True _ a) in E by done.
        assert (a ∈ b :: l2) as Hin.
        { eapply (proj1 (list_elem_of_filter (fun x => week_key x = week_key a) _ _)).
          rewrite <- E. left. }
        apply elem_of_cons in Hin as [->|Hin]; [done|].
        by apply (proj1 (Forall_forall _ _) Hb). }
    pose proof (Hf (week_key a)) as E.
    rewrite filter_cons_True, (filter_cons_True _ b) in E by done.
    injection E as <- _. f_equal. apply IH; [done|done|].
    intros k. specialize (Hf k). rewrite !filter_cons in Hf.
    destruct (decide (week_key a = k)); [by injection Hf|done].
Qed.

Lemma upserted_filter_other k l b :
  week_key b <> k ->
  filter (fun x => week_key x = k) (upserted l b)
  = filter (fun x => week_key x = k) l.
Proof.
  intros Hk.
  destruct (upserted_cases l b)
    as [(pre & a & post & -> & _ & Ha & ->)|[_ ->]].
  - assert (week_key a <> k) by (unfold week_key in *; by rewrite Ha).
    by rewrite !filter_app, !filter_cons_False.
  - rewrite filter_app, filter_cons_False by done.
    by rewrite filter_nil, app_nil_r.
Qed.

Lemma replace_loop_filter_key b l :
  replace_loop (week b) b (filter (fun x => week_key x = week_key b) l)
  = (filter (fun x => week_key x = week_key b) (replace_loop (week b) b l).1,
     (replace_loop (week b) b l).2).
Proof.
  induction l as [|x l IH]; simpl; [done|].
  destruct (decide (week x = week b)) as [Hx|Hx].
  - assert (week_key x = week_key b) by (unfold week_key; by rewrite Hx).
    rewrite filter_cons_True by done. simpl.
    rewrite decide_True by done. simpl. by rewrite filter_cons_True.
  - destruct (replace_loop (week b) b l) as [r f] eqn:E. simpl in *.
    rewrite !filter_cons.
    destruct (decide (week_key x = week_key b)); [|done].
    simpl. rewrite decide_False by done. by rewrite IH.
Qed.

Lemma upserted_filter_same l b :
  filter (fun x => week_key x = week_key b) (upserted l b)
  = upserted (filter (fun x => week_key x = week_key b) l) b.
Proof.
  unfold upserted. rewrite replace_loop_filter_key.
  destruct (replace_loop (week b) b l) as [r [|]]; simpl; [done|].
  rewrite filter_app, filter_cons_True by done. by rewrite filter_nil.
Qed.

Lemma filter_key_upsert k old a :
  filter (fun x => week_key x = k) (sort_by_week (upserted old a))
  = if decide (week_key a = k)
    then upserted (filter (fun x => week_key x = k) old) a
    else filter (fun x => week_key x = k) old.
Proof.
  rewrite sort_by_week_filter_key. destruct (decide (week_key a = k)) as [<-|Hk].
  - apply upserted_filter_same.
  - by apply upserted_filter_other.
Qed.

(** X3. Upserts of two records with different sort keys commute: the
    document does not depend on the order in which the two were added. *)
Theorem upsert_article_commute (data : Document) (a b : Article) :
  week_key a <> week_key b ->
  upsert_article (upsert_article data a) b
  = upsert_article (upsert_article data b) a.
Proof.
  intros Hab.
  rewrite (upsert_article_unfold (upsert_article data a) b).
  rewrite (upsert_article_unfold (upsert_article data b) a).
  rewrite !get_articles_upsert.
  assert (sort_by_week (upserted (sort_by_week (upserted (get_articles data) a)) b)
          = sort_by_week (upserted (sort_by_week (upserted (get_articles data) b)) a))
    as ->.
  { apply sorted_by_key_unique; [apply sort_by_week_sorted..|].
    intros k. rewrite !filter_key_upsert.
    destruct (decide (week_key b = k)) as [Hb|Hb];
      destruct (decide (week_key a = k)) as [Ha|Ha]; try done.
    congruence. }
  f_equal. rewrite !upsert_article_unfold. simpl.
  by rewrite !insert_insert_eq.
Qed.

Lemma upsert_article_commute_witness :
  upsert_article (upsert_article sample_document (sample_article 2 "two"))
                 (sample_article 1 "uno")
  = upsert_article (upsert_article sample_document (sample_article 1 "uno"))
                   (sample_article 2 "two").
Proof.
  apply (upsert_article_commute sample_document
           (sample_article 2 "two") (sample_article 1 "uno")).
  discriminate.
Defined.

(** ** More on [sync_inline_json] *)

Lemma first_occurrence_unique sub s pre post pre' post' :
  first_occurrence sub s pre post -> first_occurrence sub s pre' post' ->
  pre = pre' /\ post = post'.
Proof.
  intros [Ho Hmin] [Ho' Hmin'].
  pose proof (Hmin _ _ Ho'). pose proof (Hmin' _ _ Ho).
  unfold occurs_at in *. rewrite Ho in Ho'.
  apply app_inj_1 in Ho' as [-> Ho']; [|lia].
  by apply app_inv_head in Ho'.
Qed.

(** The first occurrence of a marker does not depend on what follows it. *)
Lemma first_occurrence_rest sub pre rest rest' :
  first_occurrence sub (pre ++ sub ++ rest) pre rest ->
  first_occurrence sub (pre ++ sub ++ rest') pre rest'.
Proof.
  intros [_ Hmin]. split; [done|]. intros p' q' Ho. unfold occurs_at in Ho.
  destruct (decide (length pre <= length p')%nat) as [|Hlt]; [done|].
  exfalso. apply app_eq_inv in Ho as [(k & -> & Hk)|(k & -> & Hk)].
  - assert (take (length sub) (k ++ sub) = sub) as Htake.
    { apply (f_equal (take (length sub))) in Hk.
      rewrite take_app_length, app_assoc, take_app_le in Hk;
        [done|rewrite length_app; lia]. }
    apply Hlt, (Hmin p' (drop (length sub) (k ++ sub) ++ rest)).
    unfold occurs_at. rewrite <- !app_assoc. f_equal.
    rewrite !app_assoc. f_equal.
    rewrite <- Htake at 2. by rewrite take_drop.
  - rewrite length_app in Hlt. lia.
Qed.

Lemma find_first s sub pre post :
  first_occurrence sub s pre post -> find s sub 0 = Some (length pre).
Proof.
  intros Hfirst. pose proof (find_0_spec s sub) as Hf.
  destruct (find s sub 0) as [j|].
  - destruct Hf as (pre' & post' & Hfirst' & ->).
    by destruct (first_occurrence_unique _ _ _ _ _ _ Hfirst Hfirst') as [-> _].
  - destruct Hfirst as [Ho _]. exfalso. apply Hf. by exists pre, post.
Qed.

Lemma find_first_after pre marker rest sub mid post :
  first_occurrence sub rest mid post ->
  find (pre ++ marker ++ rest) sub (length pre + length marker)
  = Some (length pre + length marker + length mid)%nat.
Proof.
  intros Hfirst. pose proof (find_after_spec pre marker rest sub) as Hf.
  destruct (find _ sub _) as [j|].
  - destruct Hf as (mid' & post' & Hfirst' & ->).
    by destruct (first_occurrence_unique _ _ _ _ _ _ Hfirst Hfirst') as [-> _].
  - destruct Hfirst as [Ho _]. exfalso. apply Hf. by exists mid, post.
Qed.

Section SyncRuns.
Context `{Runtime}.

(** What [sync_inline_json] writes for the document. *)
Lemma sync_inline_json_found index_html data w (pre mid post : str) :
  w !! index_html = Some (pre ++ SCRIPT_OPEN ++ mid ++ SCRIPT_CLOSE ++ post) ->
  first_occurrence SCRIPT_OPEN (pre ++ SCRIPT_OPEN ++ mid ++ SCRIPT_CLOSE ++ post)
                   pre (mid ++ SCRIPT_CLOSE ++ post) ->
  first_occurrence SCRIPT_CLOSE (mid ++ SCRIPT_CLOSE ++ post) mid post ->
  sync_inline_json index_html data w
  = (Ok (), <[index_html := pre ++ SCRIPT_OPEN ++ inline_json data
                              ++ SCRIPT_CLOSE ++ post]> w).
Proof.
  intros Hw Hopen Hclose.
  unfold sync_inline_json, mbind, M_bind, read_text, str. rewrite Hw.
  rewrite (find_first _ _ _ _ Hopen).
  rewrite (find_first_after pre SCRIPT_OPEN _ SCRIPT_CLOSE mid post Hclose).
  unfold write_text, inline_json. do 2 f_equal.
  rewrite (app_assoc pre), take_app_length'; [|by rewrite length_app].
  rewrite (app_assoc _ mid), drop_app_length'; [|by rewrite !length_app; lia].
  by rewrite <- !app_assoc.
Qed.

(** A successful run found the two markers. *)
Lemma sync_inline_json_ok index_html data w w1 :
  sync_inline_json index_html data w = (Ok (), w1) ->
  exists pre mid post : str,
    w !! index_html = Some (pre ++ SCRIPT_OPEN ++ mid ++ SCRIPT_CLOSE ++ post) /\
    first_occurrence SCRIPT_OPEN (pre ++ SCRIPT_OPEN ++ mid ++ SCRIPT_CLOSE ++ post)
                     pre (mid ++ SCRIPT_CLOSE ++ post) /\
    first_occurrence SCRIPT_CLOSE (mid ++ SCRIPT_CLOSE ++ post) mid post.
Proof.
  unfold sync_inline_json, mbind, M_bind, read_text, die, lift.
  destruct (w !! index_html) as [html|] eqn:Hw; [|done].
  pose proof (find_0_spec html SCRIPT_OPEN) as Hopen.
  destruct (find html SCRIPT_OPEN 0) as [start|]; [|done].
  destruct Hopen as (pre & rest & Hfirst & ->).
  pose proof Hfirst as [Hhtml _]. unfold occurs_at in Hhtml.
  pose proof (find_after_spec pre SCRIPT_OPEN rest SCRIPT_CLOSE) as Hclose.
  rewrite <- Hhtml in Hclose.
  destruct (find html SCRIPT_CLOSE _) as [end_|]; [|done].
  destruct Hclose as (mid & post & Hmid & ->).
  pose proof Hmid as [Hrest _]. unfold occurs_at in Hrest. subst rest html.
  intros _. by exists pre, mid, post.
Qed.

(** X4. The last synchronisation wins: after a successful
    [sync_inline_json], a second one (for any document) succeeds and leaves
    the page it would have left without the first; running the same
    synchronisation twice writes the same page again. *)
Theorem sync_inline_json_last_wins
    (index_html : Path) (d1 d2 : Document) (w w1 : World) :
  sync_inline_json index_html d1 w = (Ok (), w1) ->
  sync_inline_json index_html d2 w1 = sync_inline_json index_html d2 w /\
  sync_inline_json index_html d1 w1 = (Ok (), w1).
Proof.
  intros Hrun.
  destruct (sync_inline_json_ok _ _ _ _ Hrun)
    as (pre & mid & post & Hw & Hopen & Hclose).
  rewrite (sync_inline_json_found _ d1 _ _ _ _ Hw Hopen Hclose) in Hrun.
  injection Hrun as <-.
  assert (forall d,
    sync_inline_json index_html d
      (<[index_html := pre ++ SCRIPT_OPEN ++ inline_json d1
                         ++ SCRIPT_CLOSE ++ post]> w)
    = (Ok (), <[index_html := pre ++ SCRIPT_OPEN ++ inline_json d
                                ++ SCRIPT_CLOSE ++ post]> w)) as Hagain.
  { intros d.
    rewrite (sync_inline_json_found _ d _ pre (inline_json d1) post).
    - by rewrite insert_insert_eq.
    - by rewrite lookup_insert_eq.
    - by apply (first_occurrence_rest _ _ _ _ Hopen).
    - apply close_after_clean, escaped_no_close. }
  split; [|apply Hagain].
  by rewrite Hagain, (sync_inline_json_found _ d2 _ _ _ _ Hw Hopen Hclose).
Qed.

End SyncRuns.

Lemma sync_inline_json_last_wins_witness :
  let index_html := [u "site"; u "index.html"] in
  let w := <[index_html := sample_page]> ∅ in
  let w1 := (@sync_inline_json ascii_runtime index_html sample_document w).2 in
  @sync_inline_json ascii_runtime index_html sample_document w1
  = @sync_inline_json ascii_runtime index_html sample_document w /\
  @sync_inline_json ascii_runtime index_html sample_document w1 = (Ok (), w1).
Proof.
  apply (@sync_inline_json_last_wins ascii_runtime). reflexivity.
Defined.

(** ** [first_cover_src] *)

Lemma forallb_not_char (c : N) (l : str) :
  forallb (fun x => negb (x =? c)%N) l = true <-> c ∉ l.
Proof.
  induction l as [|x l IH]; simpl.
  - split; [intros _; apply not_elem_of_nil|done].
  - rewrite andb_true_iff, IH, not_elem_of_cons, negb_true_iff, N.eqb_neq.
    split; intros [? ?]; split; try done; by intros ->.
Qed.

Lemma plus_greedy_stuck {B} p (k : str -> option B) rest :
  (forall c, head rest = Some c -> p c = false) -> plus_greedy p k rest = None.
Proof. destruct rest as [|c rest]; simpl; [done|]. intros Hc. by rewrite Hc. Qed.

(** A run that cannot be extended, followed by a match of the rest of the
    pattern, is what the greedy repetition takes. *)
Lemma plus_greedy_maximal {B} p (k : str -> option B) run rest b :
  run <> [] -> forallb p run = true ->
  (forall c, head rest = Some c -> p c = false) -> k rest = Some b ->
  plus_greedy p k (run ++ rest) = Some (run, b).
Proof.
  intros Hne Hp Hrest Hk. induction run as [|c run IH]; [done|].
  simpl in Hp. apply andb_true_iff in Hp as [Hc Hp].
  rewrite <- app_comm_cons, plus_greedy_cons, Hc.
  destruct run as [|c' run].
  - simpl. by rewrite plus_greedy_stuck, Hk.
  - by rewrite IH.
Qed.

Lemma plus_lazy_sound {B} p (k : str -> option B) s run b :
  plus_lazy p k s = Some (run, b) ->
  run <> [] /\ forallb p run = true /\
  exists rest, s = run ++ rest /\ k rest = Some b.
Proof.
  revert run. induction s as [|c s IH]; intros run; simpl; [done|].
  destruct (p c) eqn:Hc; [|done].
  destruct (k s) as [b'|] eqn:Hk.
  - intros [= <- <-]. simpl. rewrite Hc. repeat split; [done|]. by exists s.
  - destruct (plus_lazy p k s) as [[run' b']|]; [|done].
    intros [= <- <-]. destruct (IH run' eq_refl) as (_ & Hp & rest & -> & Hk').
    simpl. rewrite Hc, Hp. repeat split; [done|]. by exists rest.
Qed.

Lemma lit_at_eol_Some prefix s :
  lit prefix s ≫= at_eol = Some () <->
  exists tail, s = prefix ++ tail /\ (tail = [] \/ tail = [LF]).
Proof.
  split.
  - destruct (lit prefix s) as [r|] eqn:Hr; [|done].
    apply lit_Some in Hr as ->. unfold at_eol, mbind, option_bind.
    destruct (eol r) eqn:He; [|done].
    intros _. exists r. split; [done|by apply eol_iff].
  - intros (tail & -> & Ht).
    rewrite (proj2 (lit_Some prefix _ tail) eq_refl).
    unfold at_eol, mbind, option_bind.
    by rewrite (proj2 (eol_iff tail) Ht).
Qed.

Lemma link_target_Some r g :
  link_target r = Some g <->
  exists tail, r = u "](" ++ g ++ u ")" ++ tail /\
               g <> [] /\ (RIGHT_PAREN ∉ g) /\ (tail = [] \/ tail = [LF]).
Proof.
  unfold link_target. split.
  - destruct (lit (u "](") r) as [r2|] eqn:Hr; [|done].
    apply lit_Some in Hr as ->. cbn [mbind option_bind].
    destruct (plus_greedy _ link_end r2) as [[url []]|] eqn:Hg; [|done].
    intros [= ->].
    apply plus_greedy_sound in Hg as (Hne & Hp & rest & -> & Hrest).
    apply lit_at_eol_Some in Hrest as (tail & -> & Htail).
    exists tail. repeat split; try done. by apply forallb_not_char.
  - intros (tail & -> & Hne & Hg & Htail).
    rewrite (proj2 (lit_Some (u "](") _ _) eq_refl). cbn [mbind option_bind].
    rewrite (plus_greedy_maximal _ _ g (u ")" ++ tail) ()); try done.
    + by apply forallb_not_char.
    + by intros c [= <-].
    + apply lit_at_eol_Some. by exists tail.
Qed.

Lemma image_link_re_unfold s :
  image_link_re s
  = (r ← lit (u "![") s;
     '(_, url) ← star_greedy (fun c => negb (c =? RIGHT_BRACKET)%N) link_target r;
     Some url).
Proof. reflexivity. Qed.

Lemma embed_re_unfold s :
  embed_re s
  = (r ← lit (u "![[") s;
     '(target, _) ← plus_lazy dot embed_end r;
     Some target).
Proof. reflexivity. Qed.

Lemma image_link_re_Some s g :
  image_link_re s = Some g <->
  exists alt tail, s = u "![" ++ alt ++ u "](" ++ g ++ u ")" ++ tail /\
                   (RIGHT_BRACKET ∉ alt) /\ g <> [] /\ (RIGHT_PAREN ∉ g) /\
                   (tail = [] \/ tail = [LF]).
Proof.
  rewrite image_link_re_unfold. split.
  - destruct (lit (u "![") s) as [r|] eqn:Hr; [|done].
    apply lit_Some in Hr as ->. cbn [mbind option_bind].
    destruct (star_greedy _ link_target r) as [[alt g']|] eqn:Hstar; [|done].
    intros [= ->]. unfold star_greedy in Hstar.
    destruct (plus_greedy _ link_target r) as [[run b]|] eqn:Hg.
    + injection Hstar as -> ->.
      apply plus_greedy_sound in Hg as (_ & Hp & rest & -> & Hrest).
      apply link_target_Some in Hrest as (tail & -> & Hne & Hg' & Htail).
      exists alt, tail. repeat split; try done. by apply forallb_not_char.
    + destruct (link_target r) as [b|] eqn:Hrest; [|done].
      injection Hstar as <- ->.
      apply link_target_Some in Hrest as (tail & -> & Hne & Hg' & Htail).
      exists [], tail. repeat split; try done. apply not_elem_of_nil.
  - intros (alt & tail & -> & Halt & Hne & Hg & Htail).
    rewrite (proj2 (lit_Some (u "![") _ _) eq_refl). cbn [mbind option_bind].
    assert (link_target (u "](" ++ g ++ u ")" ++ tail) = Some g) as Hk.
    { apply link_target_Some. by exists tail. }
    unfold star_greedy. destruct alt as [|a alt].
    + rewrite app_nil_l, plus_greedy_stuck, Hk; [done|]. by intros c [= <-].
    + rewrite (plus_greedy_maximal _ _ (a :: alt) _ g); try done.
      * by apply forallb_not_char.
      * by intros c [= <-].
Qed.

Lemma embed_lazy target tail :
  target <> [] -> LF ∉ target -> tail = [] \/ tail = [LF] ->
  plus_lazy dot embed_end (target ++ u "]]" ++ tail) = Some (target, ()).
Proof.
  intros Hne Hlf Htail. induction target as [|c t IH]; [done|].
  apply not_elem_of_cons in Hlf as [Hc Hlf].
  assert (Hdot : dot c = true).
  { unfold dot. by apply negb_true_iff, N.eqb_neq. }
  rewrite <- app_comm_cons. cbn [plus_lazy]. rewrite Hdot.
  destruct t as [|c' t].
  - rewrite app_nil_l.
    assert (embed_end (u "]]" ++ tail) = Some ()) as ->; [|done].
    apply lit_at_eol_Some. by exists tail.
  - destruct (embed_end ((c' :: t) ++ u "]]" ++ tail)) as [[]|] eqn:E.
    + exfalso. apply lit_at_eol_Some in E as (tail' & E & Ht').
      apply (f_equal length) in E as Hlen.
      rewrite !length_app in Hlen. simpl in Hlen.
      destruct Htail as [-> | ->], Ht' as [-> | ->]; simpl in Hlen; try lia.
      destruct t; [|simpl in Hlen; lia]. by injection E.
    + by rewrite IH.
Qed.

Lemma embed_re_Some s g :
  embed_re s = Some g <->
  exists tail, s = u "![[" ++ g ++ u "]]" ++ tail /\
               g <> [] /\ (LF ∉ g) /\ (tail = [] \/ tail = [LF]).
Proof.
  rewrite embed_re_unfold. split.
  - destruct (lit (u "![[") s) as [r|] eqn:Hr; [|done].
    apply lit_Some in Hr as ->. cbn [mbind option_bind].
    destruct (plus_lazy dot embed_end r) as [[target []]|] eqn:Hl; [|done].
    intros [= ->].
    apply plus_lazy_sound in Hl as (Hne & Hp & rest & -> & Hrest).
    apply lit_at_eol_Some in Hrest as (tail & -> & Htail).
    exists tail. repeat split; try done. by apply forallb_not_char.
  - intros (tail & -> & Hne & Hlf & Htail).
    rewrite (proj2 (lit_Some (u "![[") _ _) eq_refl). cbn [mbind option_bind].
    by rewrite embed_lazy.
Qed.


Lemma strip_last_not_LF line a : strip line <> a ++ [LF].
Proof.
  intros Hs. destruct (strip_by_spec isspace line) as (_ & _ & _ & _ & _ & _ & Hl).
  specialize (Hl LF). fold (strip line) in Hl. rewrite Hs, last_snoc in Hl.
  by specialize (Hl eq_refl).
Qed.

(** On a stripped line the two patterns match the two forms of a cover
    line, and nothing else. *)
Lemma image_link_re_strip line g :
  image_link_re (strip line) = Some g <-> image_link (strip line) g.
Proof.
  rewrite image_link_re_Some. split.
  - intros (alt & tail & Hs & Halt & Hne & Hg & [-> | ->]).
    + exists alt. by rewrite app_nil_r in Hs.
    + exfalso. apply (strip_last_not_LF line (u "![" ++ alt ++ u "](" ++ g ++ u ")")).
      by rewrite Hs, <- !app_assoc.
  - intros (alt & Hs & Halt & Hne & Hg). exists alt, [].
    rewrite app_nil_r. repeat split; try done. by left.
Qed.

Lemma embed_re_strip line g :
  embed_re (strip line) = Some g <-> embed (strip line) g.
Proof.
  rewrite embed_re_Some. split.
  - intros (tail & Hs & Hne & Hg & [-> | ->]).
    + by rewrite app_nil_r in Hs.
    + exfalso. apply (strip_last_not_LF line (u "![[" ++ g ++ u "]]")).
      by rewrite Hs, <- !app_assoc.
  - intros (Hs & Hne & Hg). exists []. rewrite app_nil_r.
    repeat split; try done. by left.
Qed.

Lemma image_link_not_embed s g g' : image_link s g -> embed s g' -> False.
Proof.
  intros (alt & -> & _) [Hs _].
  apply (f_equal last) in Hs.
  change (u ")") with [RIGHT_PAREN] in Hs.
  change (u "]]") with ([RIGHT_BRACKET] ++ [RIGHT_BRACKET]) in Hs.
  rewrite !app_assoc, !last_snoc in Hs. done.
Qed.

Lemma cover_line_iff line :
  cover_line line <->
  is_Some (image_link_re (strip line)) \/ is_Some (embed_re (strip line)).
Proof.
  split.
  - intros [g [Hg|Hg]]; [left|right]; exists g.
    + by apply image_link_re_strip.
    + by apply embed_re_strip.
  - intros [[g Hg]|[g Hg]]; exists g; [left|right].
    + by apply image_link_re_strip.
    + by apply embed_re_strip.
Qed.

Lemma first_cover_src_skip pre rest :
  Forall (fun l => ~ cover_line l) pre ->
  first_cover_src (pre ++ rest) = first_cover_src rest.
Proof.
  induction 1 as [|l pre Hl _ IH]; [done|].
  rewrite <- app_comm_cons. cbn [first_cover_src]. cbv zeta.
  rewrite cover_line_iff in Hl.
  destruct (image_link_re (strip l)) as [g|] eqn:E1.
  { exfalso. apply Hl. left. by exists g. }
  destruct (embed_re (strip l)) as [g|] eqn:E2.
  { exfalso. apply Hl. right. by exists g. }
  exact IH.
Qed.

(** X5. A markdown image line is the cover when no line before it is a
    cover line: [first_cover_src] returns its target, stripped of white
    space, whatever follows the line. *)
Theorem first_cover_src_image_link (pre : list str) (line : str)
    (post : list str) (g : str) :
  Forall (fun l => ~ cover_line l) pre ->
  image_link (strip line) g ->
  first_cover_src (pre ++ line :: post) = Some (strip g).
Proof.
  intros Hpre Hline. rewrite first_cover_src_skip by done.
  cbn [first_cover_src]. cbv zeta.
  by rewrite (proj2 (image_link_re_strip line g) Hline).
Qed.

(** X6. An embed line [![[g]]] is the cover when no line before it is a
    cover line: [first_cover_src] returns the reference [./assets/]
    followed by the stripped target. *)
Theorem first_cover_src_embed (pre : list str) (line : str)
    (post : list str) (g : str) :
  Forall (fun l => ~ cover_line l) pre ->
  embed (strip line) g ->
  first_cover_src (pre ++ line :: post) = Some (u "./assets/" ++ strip g).
Proof.
  intros Hpre Hline. rewrite first_cover_src_skip by done.
  cbn [first_cover_src]. cbv zeta.
  destruct (image_link_re (strip line)) as [g'|] eqn:E.
  { exfalso. apply image_link_re_strip in E.
    exact (image_link_not_embed _ _ _ E Hline). }
  by rewrite (proj2 (embed_re_strip line g) Hline).
Qed.

(** X7. [first_cover_src] returns nothing exactly when no line is a cover
    line, that is neither a markdown image nor an embed once stripped. *)
Theorem first_cover_src_none (lines : list str) :
  first_cover_src lines = None <-> Forall (fun l => ~ cover_line l) lines.
Proof.
  induction lines as [|l lines IH]; [by split|].
  cbn [first_cover_src]. cbv zeta. rewrite Forall_cons, cover_line_iff, <- IH.
  destruct (image_link_re (strip l)) as [g|] eqn:E1.
  { split; [done|]. intros [Hl _]. exfalso. apply Hl. left. by exists g. }
  destruct (embed_re (strip l)) as [g|] eqn:E2.
  { split; [done|]. intros [Hl _]. exfalso. apply Hl. right. by exists g. }
  split; [|by intros [_ ?]]. intros Hr. split; [|done].
  intros [[g Hg]|[g Hg]]; done.
Qed.

Lemma first_cover_src_image_link_witness :
  first_cover_src
    ([u "# Pause"] ++ u "  ![cover](./assets/a.png) " :: [u "![[b.png]]"])
  = Some (strip (u "./assets/a.png")).
Proof.
  apply first_cover_src_image_link.
  - apply Forall_cons. split; [|constructor].
    rewrite cover_line_iff. by intros [[g Hg]|[g Hg]]; vm_compute in Hg.
  - exists (u "cover"). repeat split; try done.
    + apply forallb_not_char. by vm_compute.
    + apply forallb_not_char. by vm_compute.
Defined.

Lemma first_cover_src_embed_witness :
  first_cover_src ([u "# Pause"] ++ u " ![[ b.png ]]" :: [u "> why"])
  = Some (u "./assets/" ++ strip (u " b.png ")).
Proof.
  apply first_cover_src_embed.
  - apply Forall_cons. split; [|constructor].
    rewrite cover_line_iff. by intros [[g Hg]|[g Hg]]; vm_compute in Hg.
  - repeat split; try done. apply forallb_not_char. by vm_compute.
Defined.

(** ** The cover image *)

Section CoverChoice.
Context `{Runtime}.

Lemma pick_cover_loop_spec stem exts w :
  let candidates :=
    (fun ext => joinpath (joinpath ROOT (u "assets")) (stem ++ ext)) <$> exts in
  (exists p, first_existing w candidates p /\
             pick_cover_loop stem exts w = (Ok p, w))
  \/ (Forall (fun q => exists_ w q = false) candidates /\
      pick_cover_loop stem exts w = (Die NoCoverImage, w)).
Proof.
  induction exts as [|ext exts IH]; cbn [pick_cover_loop fmap list_fmap].
  - right. by split.
  - unfold mbind, M_bind, path_exists.
    destruct (exists_ w (joinpath (joinpath ROOT (u "assets")) (stem ++ ext)))
      eqn:He.
    + left. eexists. split; [|reflexivity]. exists []. eexists. by repeat split.
    + destruct IH as [(p & (before & after & Hc & Hb & Hp) & Hrun)|[Hnone Hrun]].
      * left. exists p. split; [|done].
        exists (joinpath (joinpath ROOT (u "assets")) (stem ++ ext) :: before), after.
        cbv zeta in Hc. rewrite Hc. repeat split; [|done]. by constructor.
      * right. split; [|done]. by constructor.
Qed.

(** X8. [pick_cover_asset] returns the first existing file among the
    assets named after the week and the title with the extensions [.webp],
    [.png], [.jpg] and [.jpeg], in that order, and dies (no cover image)
    exactly when none of the four exists; it changes no file. *)
Theorem pick_cover_asset_spec (week : Z) (title : str) (w : World) :
  (exists p, first_existing w (cover_candidates week title) p /\
             pick_cover_asset week title w = (Ok p, w))
  \/ (Forall (fun q => exists_ w q = false) (cover_candidates week title) /\
      pick_cover_asset week title w = (Die NoCoverImage, w)).
Proof. apply pick_cover_loop_spec. Qed.

Lemma pick_cover_asset_post week title w :
  exists r, pick_cover_asset week title w = (r, w) /\
    match r with
    | Ok p => exists_ w p = true
    | Die why => why = NoCoverImage
    | Raise _ => False
    end.
Proof.
  destruct (pick_cover_loop_spec
              (u "Week" ++ format_02d week ++ [SEP] ++ title)
              [WEBP; u ".png"; u ".jpg"; u ".jpeg"] w)
    as [(p & (_ & _ & _ & _ & Hp) & Hrun)|[_ Hrun]]; by eexists.
Qed.

Lemma resolve_cover_cases cover_src week title w :
  (exists ref p, cover_src = Some ref /\ resolve_local_path ref = Some p /\
                 exists_ w p = true /\
                 resolve_cover cover_src week title w = (Ok p, w))
  \/ ((forall ref p, cover_src = Some ref -> resolve_local_path ref = Some p ->
                     exists_ w p = false) /\
      resolve_cover cover_src week title w = pick_cover_asset week title w).
Proof.
  unfold resolve_cover. destruct cover_src as [[|c cs]|].
  - right. split; [|done]. by intros ref p [= <-].
  - destruct (resolve_local_path (c :: cs)) as [p|] eqn:Hp.
    + unfold mbind, M_bind, path_exists.
      destruct (exists_ w p) eqn:He.
      * left. by exists (c :: cs), p.
      * right. split; [|done]. intros ref p' [= <-]. congruence.
    + right. split; [|done]. intros ref p' [= <-]. congruence.
  - right. split; [|done]. by intros ref p.
Qed.


End CoverChoice.

(** ** What a computation leaves on the file system *)

Lemma exists_false (w : World) (p : Path) : exists_ w p = false <-> w !! p = None.
Proof.
  unfold exists_. rewrite bool_decide_eq_false, <- eq_None_not_Some. done.
Qed.

Lemma exists_true (w : World) (p : Path) : exists_ w p = true <-> is_Some (w !! p).
Proof. unfold exists_. by rewrite bool_decide_eq_true. Qed.

Lemma keeps_refl outputs w : keeps outputs w w.
Proof. intros p _. by left. Qed.

Lemma keeps_trans outputs w1 w2 w3 :
  keeps outputs w1 w2 -> keeps outputs w2 w3 -> keeps outputs w1 w3.
Proof.
  intros H12 H23 p Hp.
  destruct (H12 p Hp) as [E12|[Hnone Hwebp]]; [|by right].
  destruct (H23 p Hp) as [E23|[Hnone Hwebp]].
  - left. by rewrite E23.
  - right. split; [|done]. by rewrite <- E12.
Qed.

Lemma keeps_mono outputs outputs' w w' :
  outputs ⊆ outputs' -> keeps outputs w w' -> keeps outputs' w w'.
Proof. intros Hsub Hk p Hp. apply Hk. intros Hin. by apply Hp, Hsub. Qed.

Lemma preserves_ret {A} outputs (x : A) : preserves outputs (mret x).
Proof. intros w r w' [= _ <-]. apply keeps_refl. Qed.

Lemma preserves_lift {A} outputs (r : result A) : preserves outputs (lift r).
Proof. intros w r' w' [= _ <-]. apply keeps_refl. Qed.

Lemma preserves_path_exists outputs p : preserves outputs (path_exists p).
Proof. intros w r w' [= _ <-]. apply keeps_refl. Qed.

Lemma preserves_read_text outputs p : preserves outputs (read_text p).
Proof.
  intros w r w'. unfold read_text.
  destruct (w !! p); intros [= _ <-]; apply keeps_refl.
Qed.

Lemma preserves_write_text outputs p text :
  p ∈ outputs -> preserves outputs (write_text p text).
Proof.
  intros Hp w r w' [= _ <-] q Hq. left.
  rewrite lookup_insert_ne; [done|]. by intros ->.
Qed.

Lemma preserves_bind {A B} outputs (m : M A) (k : A -> M B) :
  preserves outputs m -> (forall x, preserves outputs (k x)) ->
  preserves outputs (m ≫= k).
Proof.
  intros Hm Hk w r w'. unfold mbind, M_bind.
  destruct (m w) as [[x|why|exc] w1] eqn:E.
  - intros Hrun. eapply keeps_trans; [by eapply Hm|by eapply Hk].
  - intros [= _ <-]. by eapply Hm.
  - intros [= _ <-]. by eapply Hm.
Qed.

Lemma preserves_mono {A} outputs outputs' (m : M A) :
  outputs ⊆ outputs' -> preserves outputs m -> preserves outputs' m.
Proof. intros Hsub Hm w r w' Hrun. eapply keeps_mono; [done|by eapply Hm]. Qed.






Lemma dies_only_write_text allowed p text : dies_only allowed (write_text p text).
Proof. by intros w why w'. Qed.


Lemma suffix_of_drop name :
  suffix_of name = drop (length name - length (suffix_of name)) name.
Proof.
  unfold suffix_of. destruct (rfind_dot name 0) as [i|].
  - destruct ((0 <? i) && (S i <? length name))%nat eqn:Hi.
    + apply andb_true_iff in Hi as [_ Hi%Nat.ltb_lt].
      rewrite length_drop. f_equal. lia.
    + simpl. rewrite Nat.sub_0_r. by rewrite drop_all.
  - simpl. rewrite Nat.sub_0_r. by rewrite drop_all.
Qed.

(** [with_suffix] keeps the directory and the stem. *)
Lemma with_suffix_Ok p suffix out :
  with_suffix p suffix = Ok out ->
  exists stem,
    path_name p = stem ++ path_suffix p /\
    out = removelast p ++ [stem ++ suffix] /\ path_name out = stem ++ suffix.
Proof.
  unfold with_suffix. destruct (nonempty (path_name p)); [|done].
  intros [= <-]. exists (take (length (path_name p) - length (suffix_of (path_name p)))
                          (path_name p)).
  split; [|split; [done|]].
  - unfold path_suffix.
    rewrite <- (take_drop (length (path_name p) - length (suffix_of (path_name p)))
                          (path_name p)) at 1.
    f_equal. symmetry. apply suffix_of_drop.
  - unfold path_name at 1. by rewrite last_snoc.
Qed.



Section EncoderFacts.
Context `{Runtime}.

Lemma ensure_webp_preserves src quality :
  writes_output_only -> preserves [] (ensure_webp src quality).
Proof.
  intros Hcwebp w r w'.
  unfold ensure_webp, mbind, M_bind, lift, path_exists.
  destruct (with_suffix src WEBP) as [out| |] eqn:Hout;
    try (intros [= _ <-]; apply keeps_refl).
  apply with_suffix_Ok in Hout as (stem & _ & _ & Hname).
  destruct (exists_ w out) eqn:He; [intros [= _ <-]; apply keeps_refl|].
  apply exists_false in He. unfold run_cwebp.
  specialize (Hcwebp quality src out w).
  destruct (cwebp quality src out w) as [w1| |rc w1]; intros [= _ <-];
    try apply keeps_refl;
    intros p _; (destruct (decide (p = out)) as [->|Hp];
                 [right; split; [exact He|by exists stem]|left; by apply Hcwebp]).
Qed.


Lemma repl_preserves quality base ext :
  writes_output_only -> preserves [] (repl quality base ext).
Proof.
  intros Hcwebp. unfold repl.
  destruct (resolve_local_path _) as [src|]; [|apply preserves_ret].
  apply preserves_bind; [apply preserves_path_exists|]. intros present.
  destruct present; cbn [negb]; [|apply preserves_ret].
  apply preserves_bind; [by apply ensure_webp_preserves|]. intros out.
  apply preserves_bind; [apply preserves_lift|]. intros rel. apply preserves_ret.
Qed.


End EncoderFacts.

Section ConversionFacts.
Context `{Runtime}.

Lemma sub_assets_preserves quality k s :
  writes_output_only -> preserves [] (sub_assets quality k s).
Proof.
  intros Hcwebp. revert k. induction s as [|c s IH]; intros k;
    cbn [sub_assets]; [apply preserves_ret|].
  destruct k as [|k]; [|apply IH].
  destruct (asset_re (c :: s)) as [[base ext]|].
  - apply preserves_bind; [by apply repl_preserves|]. intros r.
    apply preserves_bind; [apply IH|]. intros rest. apply preserves_ret.
  - apply preserves_bind; [apply IH|]. intros rest. apply preserves_ret.
Qed.


(** X10. When [ensure_webp] returns, its result is the source path with
    the suffix replaced by [.webp]: same directory, same stem.  The encoder
    is run only when that file is missing, from the source to that file;
    when the file is there, nothing changes. *)
Theorem ensure_webp_output
    (src : Path) (quality : Z) (w : World) (out : Path) (w' : World) :
  ensure_webp src quality w = (Ok out, w') ->
  (exists stem, path_name src = stem ++ path_suffix src /\
                out = removelast src ++ [stem ++ WEBP])
  /\ (if exists_ w out then w' = w else cwebp quality src out w = Ran w').
Proof.
  unfold ensure_webp, mbind, M_bind, lift, path_exists.
  destruct (with_suffix src WEBP) as [out'| |] eqn:Hout; try done.
  destruct (exists_ w out') eqn:He.
  - intros [= <- <-]. rewrite He. split; [|done].
    apply with_suffix_Ok in Hout as (stem & ? & ? & _). by exists stem.
  - unfold run_cwebp.
    destruct (cwebp quality src out' w) as [w1| |rc w1] eqn:Hrun; try done.
    intros [= <- <-]. rewrite He. split; [|done].
    apply with_suffix_Ok in Hout as (stem & ? & ? & _). by exists stem.
Qed.

(** X11. With an encoder that writes its output file only,
    [convert_and_rewrite_assets_in_content] changes the file system only
    by new files whose name ends in [.webp]: it modifies or removes no
    file, whatever the text and however the run ends. *)
Theorem convert_and_rewrite_assets_in_content_keeps
    (text : str) (quality : Z) (w : World) (r : result str) (w' : World) :
  writes_output_only ->
  convert_and_rewrite_assets_in_content text quality w = (r, w') ->
  keeps [] w w'.
Proof. intros Hcwebp. by apply sub_assets_preserves. Qed.

End ConversionFacts.

Lemma converting_runtime_writes_output_only :
  @writes_output_only converting_runtime.
Proof.
  intros quality src out w p Hp. simpl. by rewrite lookup_insert_ne.
Qed.

Lemma ensure_webp_output_witness :
  (exists stem,
      path_name [u "site"; u "assets"; u "a.png"]
      = stem ++ path_suffix [u "site"; u "assets"; u "a.png"] /\
      [u "site"; u "assets"; u "a.webp"]
      = removelast [u "site"; u "assets"; u "a.png"] ++ [stem ++ WEBP])
  /\ (if exists_ world_with_png [u "site"; u "assets"; u "a.webp"]
      then world_with_webp = world_with_png
      else @cwebp converting_runtime 82 [u "site"; u "assets"; u "a.png"]
             [u "site"; u "assets"; u "a.webp"] world_with_png
           = Ran world_with_webp).
Proof.
  apply (@ensure_webp_output converting_runtime _ 82). reflexivity.
Defined.

Lemma convert_and_rewrite_assets_in_content_keeps_witness :
  keeps [] world_with_png world_with_webp.
Proof.
  apply (@convert_and_rewrite_assets_in_content_keeps converting_runtime
           (u "see ./assets/a.png") 82 world_with_png
           (Ok (u "see ./assets/a.webp"))).
  - exact converting_runtime_writes_output_only.
  - reflexivity.
Defined.

(** ** The two halves of [main] *)

Section MainStages.
Context `{Runtime}.

Lemma main_stages source_md quality w :
  main source_md quality w = (build_article source_md quality ≫= publish) w.
Proof.
  unfold main, build_article, publish, mbind, M_bind, mret, M_ret, die, lift.
  repeat (first [reflexivity | case_match]).
Qed.


Lemma resolve_cover_post cover_src week title w :
  exists r, resolve_cover cover_src week title w = (r, w) /\
    match r with
    | Ok p => exists_ w p = true
    | Die why => why = NoCoverImage
    | Raise _ => False
    end.
Proof.
  destruct (resolve_cover_cases cover_src week title w)
    as [(ref & p & _ & _ & Hp & ->)|[_ ->]].
  - by eexists.
  - apply pick_cover_asset_post.
Qed.

Lemma resolve_cover_preserves cover_src week title :
  preserves [] (resolve_cover cover_src week title).
Proof.
  intros w r w' Hrun.
  destruct (resolve_cover_post cover_src week title w) as (r' & Hr & _).
  rewrite Hr in Hrun. injection Hrun as _ <-. apply keeps_refl.
Qed.






Lemma build_article_preserves source_md quality :
  writes_output_only -> preserves [] (build_article source_md quality).
Proof.
  intros Hcwebp. unfold build_article. cbv zeta.
  apply preserves_bind; [apply preserves_path_exists|]. intros present.
  destruct present; cbn [negb]; [|apply preserves_lift].
  apply preserves_bind; [apply preserves_lift|]. intros [week title].
  apply preserves_bind; [apply preserves_read_text|]. intros md.
  apply preserves_bind; [apply preserves_lift|]. intros question.
  apply preserves_bind; [apply preserves_lift|]. intros text.
  apply preserves_bind; [apply resolve_cover_preserves|]. intros cover_path.
  apply preserves_bind.
  { case_bool_decide; [apply preserves_ret|by apply ensure_webp_preserves]. }
  intros cover_webp.
  apply preserves_bind; [apply preserves_lift|]. intros cover_rel.
  apply preserves_bind; [by apply sub_assets_preserves|]. intros text'.
  apply preserves_ret.
Qed.


End MainStages.

(** ** [main]: what a run leaves behind *)

Section MainRuns.
Context `{Runtime}.

Lemma sync_inline_json_preserves index_html data :
  preserves [index_html] (sync_inline_json index_html data).
Proof.
  unfold sync_inline_json.
  apply preserves_bind; [apply preserves_read_text|]. intros html.
  destruct (find html SCRIPT_OPEN 0) as [start|]; [|apply preserves_lift].
  destruct (find html SCRIPT_CLOSE _) as [end_|]; [|apply preserves_lift].
  apply preserves_write_text. by left.
Qed.

(** A run that does not succeed writes nothing, and dies for a missing
    marker only. *)
Lemma sync_inline_json_failed index_html data w r w' :
  sync_inline_json index_html data w = (r, w') -> r <> Ok () ->
  w' = w /\ forall why, r = Die why -> marker_failure why.
Proof.
  unfold sync_inline_json, mbind, M_bind, read_text, die, lift, write_text.
  destruct (w !! index_html) as [html|]; [|by intros [= <- <-]].
  destruct (find html SCRIPT_OPEN 0) as [start|].
  - destruct (find html SCRIPT_CLOSE _) as [end_|].
    + by intros [= <- <-].
    + intros [= <- <-] _. split; [done|]. intros why [= <-]. by right.
  - intros [= <- <-] _. split; [done|]. intros why [= <-]. by left.
Qed.

Lemma publish_inv article w1 r w' :
  publish article w1 = (r, w') ->
  (w' = w1 /\ exists exc, r = Raise exc)
  \/ exists (stored : str) data r0,
       w1 !! ARTICLES_JSON = Some stored /\ json_loads stored = Some data /\
       sync_inline_json INDEX_HTML (upsert_article data article)
         (<[ARTICLES_JSON :=
              json_dumps_indent2 (upsert_article data article) ++ [LF]]> w1)
       = (r0, w') /\
       r = match r0 with
           | Ok _ => Ok 0
           | Die why => Die why
           | Raise exc => Raise exc
           end.
Proof.
  unfold publish, mbind at 1, M_bind at 1, read_text.
  destruct (w1 !! ARTICLES_JSON) as [stored|] eqn:Hstored.
  - destruct (json_loads stored) as [data|] eqn:Hdata.
    + cbv zeta. unfold mbind, M_bind, write_text, mret, M_ret.
      destruct (sync_inline_json _ _ _) as [[[]|why|exc] w2] eqn:Hsync;
        intros [= <- <-]; right; exists stored, data; by eexists.
    + intros [= <- <-]. left. split; [done|by eexists].
  - intros [= <- <-]. left. split; [done|by eexists].
Qed.

Lemma publish_preserves article :
  preserves [ARTICLES_JSON; INDEX_HTML] (publish article).
Proof.
  unfold publish.
  apply preserves_bind; [apply preserves_read_text|]. intros stored.
  destruct (json_loads stored) as [data|]; [|apply preserves_lift]. cbv zeta.
  apply preserves_bind; [apply preserves_write_text; by left|]. intros _.
  apply preserves_bind; [|intros _; apply preserves_ret].
  eapply preserves_mono; [|apply sync_inline_json_preserves].
  intros p ->%list_elem_of_singleton. by right; left.
Qed.




End MainRuns.


Lemma M_bind_Die {A B} (m : M A) (k : A -> M B) w why w' :
  (m ≫= k) w = (Die why, w') ->
  m w = (Die why, w') \/ exists x w1, m w = (Ok x, w1) /\ k x w1 = (Die why, w').
Proof.
  unfold mbind, M_bind. destruct (m w) as [[x|why'|] w1]; [| |done].
  - intros Hk. right. by exists x, w1.
  - intros [= <- <-]. by left.
Qed.

Section MainTheorems.
Context `{Runtime}.

(** X12. With an encoder that writes its output file only, a run of
    [main], however it ends, changes nothing outside [articles.json] and
    [index.html] but for new files whose name ends in [.webp]: the source
    and the images are neither modified nor removed. *)
Theorem main_keeps_files
    (source_md : str) (quality : Z) (w : World) (r : result Z) (w' : World) :
  writes_output_only ->
  main source_md quality w = (r, w') ->
  keeps [ARTICLES_JSON; INDEX_HTML] w w'.
Proof.
  intros Hcwebp Hrun. rewrite main_stages in Hrun.
  eapply (preserves_bind _ (build_article source_md quality) publish);
    [|apply publish_preserves|exact Hrun].
  eapply preserves_mono; [|by apply build_article_preserves].
  by intros p Hp%elem_of_nil.
Qed.



(** X15. With an encoder that writes its output file only, a run of
    [main] that dies with any diagnostic other than the two of the missing
    markers has modified no file at all, [articles.json] and [index.html]
    included; at most it has left new [.webp] files. *)
Theorem main_dies_before_store
    (source_md : str) (quality : Z) (w : World) (why : failure) (w' : World) :
  writes_output_only ->
  main source_md quality w = (Die why, w') ->
  build_failure why ->
  keeps [] w w'.
Proof.
  intros Hcwebp Hrun Hwhy. rewrite main_stages in Hrun.
  apply M_bind_Die in Hrun as [Hbuild|(article & w1 & Hbuild & Hpublish)].
  { by apply (build_article_preserves source_md quality Hcwebp _ _ _ Hbuild). }
  exfalso. apply publish_inv in Hpublish
    as [[_ [exc ?]]|(stored & data & r0 & Hstored & Hdata & Hsync & Hr)];
    [done|].
  destruct r0 as [[]|why'|]; [done| |done]. injection Hr as <-.
  destruct (sync_inline_json_failed _ _ _ _ _ Hsync) as [_ Hmarker]; [done|].
  destruct Hwhy as [? ?]. by destruct (Hmarker why eq_refl).
Qed.

End MainTheorems.

Lemma ascii_runtime_writes_output_only : @writes_output_only ascii_runtime.
Proof. by intros quality src out w. Qed.

Lemma main_keeps_files_witness :
  @keeps [@ARTICLES_JSON converting_runtime; @INDEX_HTML converting_runtime]
    sample_site_with_png
    (@main converting_runtime sample_source_md 82 sample_site_with_png).2.
Proof.
  apply (@main_keeps_files converting_runtime sample_source_md 82
           sample_site_with_png (Ok 0)).
  - exact converting_runtime_writes_output_only.
  - reflexivity.
Defined.



Lemma main_dies_before_store_witness :
  keeps [] (sample_site markdown_without_divider)
           (sample_site markdown_without_divider).
Proof.
  apply (@main_dies_before_store ascii_runtime sample_source_md 82
           (sample_site markdown_without_divider) NoDivider).
  - exact ascii_runtime_writes_output_only.
  - reflexivity.
  - by split.
Defined.

(** ** File names, stems and references *)

Lemma format_02d_digits (v1 v2 : Z) :
  0 <= v1 <= 9 -> 0 <= v2 <= 9 ->
  format_02d (10 * v1 + v2) = [Z.to_N (48 + v1); Z.to_N (48 + v2)].
Proof.
  intros H1 H2.
  assert (v1 = 0 \/ v1 = 1 \/ v1 = 2 \/ v1 = 3 \/ v1 = 4 \/ v1 = 5 \/ v1 = 6
          \/ v1 = 7 \/ v1 = 8 \/ v1 = 9) as Hv1 by lia.
  assert (v2 = 0 \/ v2 = 1 \/ v2 = 2 \/ v2 = 3 \/ v2 = 4 \/ v2 = 5 \/ v2 = 6
          \/ v2 = 7 \/ v2 = 8 \/ v2 = 9) as Hv2 by lia.
  clear H1 H2.
  repeat (destruct Hv1 as [->|Hv1]); try subst v1;
    repeat (destruct Hv2 as [->|Hv2]); try subst v2; reflexivity.
Qed.

Section NameFacts.
Context `{Runtime}.

(** X16. The cover is looked up under the name of the source: for a
    source named [Week], two ASCII digits, the separator, a title and
    [.md], the stem [pick_cover_asset] builds from the week and the title
    that [parse_week_filename] returns is the file name without [.md]. *)
Theorem cover_stem_of_source_name (path : Path) (d1 d2 : N) (title : str) :
  path_name path = u "Week" ++ [d1; d2] ++ [SEP] ++ title ++ u ".md" ->
  ascii_digit d1 -> ascii_digit d2 -> title <> [] -> LF ∉ title ->
  exists week,
    parse_week_filename path = Ok (week, title) /\
    u "Week" ++ format_02d week ++ [SEP] ++ title
    = u "Week" ++ [d1; d2] ++ [SEP] ++ title.
Proof.
  intros Hname [Hr1 Hd1] [Hr2 Hd2] Hne Hlf.
  exists (10 * (Z.of_N d1 - 48) + (Z.of_N d2 - 48)). split.
  - unfold parse_week_filename, week_filename_re. rewrite Hname.
    rewrite (proj2 (lit_Some (u "Week") _ _) eq_refl).
    cbn [mbind option_bind app].
    rewrite Hd1, Hd2. cbn [mbind option_bind].
    rewrite (proj2 (lit_Some [SEP] (SEP :: _) _) eq_refl).
    cbn [mbind option_bind].
    rewrite <- (app_nil_r (u ".md")), title_greedy by (done || by left).
    cbn [mbind option_bind]. unfold int. cbn [int_digits].
    rewrite Hd1. cbn [mbind option_bind]. rewrite Hd2. cbn [mbind option_bind].
    reflexivity.
  - rewrite format_02d_digits by lia. do 2 f_equal.
    f_equal; [|f_equal]; lia.
Qed.

(** X17. What [parse_week_filename] returns, on a platform whose decimal
    digits have the values 0 to 9: a week from 0 to 99, which [02d] writes
    with two characters, and a title that is not empty and has no
    newline. *)
Theorem parse_week_filename_range (path : Path) (week : Z) (title : str) :
  (forall c v, decimal_digit c = Some v -> 0 <= v <= 9) ->
  parse_week_filename path = Ok (week, title) ->
  0 <= week <= 99 /\ length (format_02d week) = 2%nat /\
  title <> [] /\ LF ∉ title.
Proof.
  intros Hdigits Hparse.
  destruct (parse_week_filename_cases path)
    as [(v1 & v2 & title' & Hshape & Hok)|[_ Hdie]]; [|congruence].
  rewrite Hok in Hparse. injection Hparse as <- <-.
  destruct Hshape as (d1 & d2 & tail & _ & Hd1%Hdigits & Hd2%Hdigits & Hne & Hlf & _).
  repeat split; try done; try lia.
  by rewrite format_02d_digits.
Qed.

(** X18. A local reference written plainly survives the trip through the
    file system: [resolve_local_path] takes [./c1/.../cn], whose components
    are neither empty nor [.] and have no slash, to the path
    [ROOT/c1/.../cn], and the reference that [main] and the rewriting of
    the content write for that path is the same text again. *)
Theorem resolve_local_path_round_trip (comps : list str) :
  comps <> [] -> Forall plain_component comps ->
  resolve_local_path (u "./" ++ join [SLASH] comps) = Some (ROOT ++ comps) /\
  webp_reference (ROOT ++ comps) = Ok (u "./" ++ join [SLASH] comps).
Proof.
  intros Hne Hplain. split.
  - unfold resolve_local_path.
    assert (startswith (u "./" ++ join [SLASH] comps) (u "./") = true) as ->
      by (apply startswith_app; by eexists).
    rewrite drop_app_length'; [|done].
    unfold joinpath. by rewrite is_absolute_join, path_parts_join.
  - unfold webp_reference. rewrite relative_to_app.
    unfold mbind, result_bind, as_posix. by destruct comps.
Qed.

End NameFacts.

Lemma ascii_runtime_ascii_digit (d : N) :
  (48 <= d <= 57)%N -> @ascii_digit ascii_runtime d.
Proof.
  intros Hd. split; [done|]. simpl.
  destruct (N.leb_spec 48 d); [|lia]. destruct (N.leb_spec d 57); [|lia]. done.
Qed.

Lemma cover_stem_of_source_name_witness :
  exists week,
    @parse_week_filename ascii_runtime sample_path = Ok (week, u "pause") /\
    u "Week" ++ format_02d week ++ [SEP] ++ u "pause"
    = u "Week" ++ [51; 57]%N ++ [SEP] ++ u "pause".
Proof.
  apply (@cover_stem_of_source_name ascii_runtime sample_path 51 57 (u "pause")).
  - reflexivity.
  - apply ascii_runtime_ascii_digit. lia.
  - apply ascii_runtime_ascii_digit. lia.
  - done.
  - apply forallb_not_char. reflexivity.
Defined.

Lemma parse_week_filename_range_witness :
  0 <= 39 <= 99 /\ length (format_02d 39) = 2%nat /\
  u "pause" <> [] /\ LF ∉ u "pause".
Proof.
  apply (@parse_week_filename_range ascii_runtime sample_path).
  - intros c v. simpl.
    destruct ((48 <=? c)%N && (c <=? 57)%N) eqn:Hc; [|done].
    apply andb_true_iff in Hc as [?%N.leb_le ?%N.leb_le]. intros [= <-]. lia.
  - reflexivity.
Defined.

Lemma resolve_local_path_round_trip_witness :
  @resolve_local_path ascii_runtime (u "./" ++ join [SLASH] [u "assets"; u "a.webp"])
  = Some (@ROOT ascii_runtime ++ [u "assets"; u "a.webp"]) /\
  @webp_reference ascii_runtime (@ROOT ascii_runtime ++ [u "assets"; u "a.webp"])
  = Ok (u "./" ++ join [SLASH] [u "assets"; u "a.webp"]).
Proof.
  apply (@resolve_local_path_round_trip ascii_runtime); [done|].
  repeat constructor; try done; apply forallb_not_char; reflexivity.
Defined.
